(** * Brill tagger templates (nltk/tag/brill/template.py)

    A shallow embedding of [Feature] and [Template]: the rich comparisons of
    Features, the two constructors with their argument-shape inspection, the
    class-level registry [ALLTEMPLATES], rule enumeration, neighbourhoods and
    the two [expand] factories.

    Conventions.  The interpreter is CPython 3.4 or later.  Python ints
    are [Z], [len] included; a tuple or list of
    ints is a [list Z]; a Python [set] of ints is a [gset Z] and a set of
    strings a [gset string].  A call that may raise returns a [result]; the
    registry is threaded explicitly through every call that touches it.  A
    Feature subclass is identified by its [__name__] (distinct subclasses
    are assumed to carry distinct names, so [__class__ is] is name
    equality). *)

From Stdlib Require Import ZArith String Ascii DecimalString DecimalNat Permutation.
From stdpp Require Import gmap strings list sorting.

Local Open Scope string_scope.
Local Open Scope list_scope.
Local Open Scope nat_scope.

(** ** Exceptions and results *)

Inductive exn : Set :=
| TypeError
| ValueError
| IndexError
| NotImplementedError.

#[global] Instance exn_eq_dec : EqDecision exn.
Proof. solve_decision. Defined.

(** [inl e]: the call raised [e]; [inr v]: it returned [v]. *)
Definition result (A : Type) : Type := (exn + A)%type.

Definition raise {A} (e : exn) : result A := inl e.

#[global] Instance result_ret : MRet result := λ A v, inr v.

#[global] Instance result_bind : MBind result := λ A B k r,
  match r with
  | inl e => inl e
  | inr v => k v
  end.

(** A list comprehension whose element expression may raise: the first
    exception ends it. *)
Fixpoint comprehension {A B} (f : A → result B) (xs : list A) : result (list B) :=
  match xs with
  | [] => mret []
  | x :: xs' => y ← f x; ys ← comprehension f xs'; mret (y :: ys)
  end.

(** A [for] loop over [xs] that updates [acc] and whose body may raise:
    the first exception ends it. *)
Fixpoint for_each {A B} (body : B → A → result B) (xs : list A) (acc : B) : result B :=
  match xs with
  | [] => mret acc
  | x :: xs' => acc' ← body acc x; for_each body xs' acc'
  end.

(** [try: body except TypeError: raise ValueError] *)
Definition except_TypeError_raise_ValueError {A} (body : result A) : result A :=
  match body with
  | inl TypeError => raise ValueError
  | other => other
  end.

(** ** Built-ins used by the module *)

(** [range(a, b)] *)
Definition range (a b : Z) : list Z := seqZ a (b - a).

(** [len(xs)] as a Python int. *)
Definition len {A} (xs : list A) : Z := Z.of_nat (length xs).

(** [xs[i]]: a negative index counts from the end, anything out of range
    raises [IndexError]. *)
Definition getitem {A} (xs : list A) (i : Z) : result A :=
  let j := if (i <? 0)%Z then (i + len xs)%Z else i in
  if (j <? 0)%Z then raise IndexError
  else match xs !! Z.to_nat j with
       | Some x => mret x
       | None => raise IndexError
       end.

(** [xs[i:j]]: negative bounds count from the end and both bounds are
    clamped to [0 .. len xs]. *)
Definition slice_bound {A} (xs : list A) (i : Z) : nat :=
  let j := if (i <? 0)%Z then (i + len xs)%Z else i in
  Z.to_nat (Z.min (Z.max 0 j) (len xs)).

Definition slice {A} (xs : list A) (i j : Z) : list A :=
  let lo := slice_bound xs i in
  let hi := slice_bound xs j in
  take (hi - lo) (drop lo xs).

(** [min(xs)] and [max(xs)] of a list that starts with [x]. *)
Definition py_min (x : Z) (xs : list Z) : Z := fold_left Z.min xs x.
Definition py_max (x : Z) (xs : list Z) : Z := fold_left Z.max xs x.

(** [repr] of an int and of a list of ints, and [sep.join(parts)]. *)
Definition repr_int (z : Z) : string := NilZero.string_of_int (Z.to_int z).

Fixpoint join (sep : string) (parts : list string) : string :=
  match parts with
  | [] => ""
  | [p] => p
  | p :: rest => p +:+ sep +:+ join sep rest
  end.

Definition repr_list (zs : list Z) : string :=
  "[" +:+ join ", " (repr_int <$> zs) +:+ "]".

(** ["{0:03d}".format(n)] for a length [n]: decimal digits, padded on the
    left with zeros to width 3. *)
Definition zeros (k : nat) : string := string_of_list_ascii (replicate k "0"%char).

Definition format_03d (n : nat) : string :=
  let digits := NilZero.string_of_uint (Nat.to_uint n) in
  zeros (3 - String.length digits) +:+ digits.

(** [enumerate(xs)] *)
Definition enumerate {A} (xs : list A) : list (nat * A) := imap pair xs.

(** [itertools.product] over a tuple of pools, as the library documents it: the pools are
    consumed left to right, each extending every partial tuple, so the
    rightmost pool varies fastest. *)
Definition it_product {A} (pools : list (list A)) : list (list A) :=
  fold_left (λ res pool, x ← res; (λ y, x ++ [y]) <$> pool) pools [[]].

(** [itertools.combinations(xs, r)]: the [r]-element subsequences in
    lexicographic order of their indices; a negative [r] raises
    [ValueError].  The call reads [r] into a [Py_ssize_t] first, raising
    [OverflowError] when it does not fit, and allocates [r] indices even
    when [r] exceeds [len(xs)]; [it_combinations] is the call on the sizes
    that fit, memory permitting. *)
Fixpoint combinations_nat {A} (xs : list A) (r : nat) : list (list A) :=
  match r with
  | O => [[]]
  | S r' =>
      match xs with
      | [] => []
      | x :: xs' => ((x ::.) <$> combinations_nat xs' r') ++ combinations_nat xs' r
      end
  end.

Definition it_combinations {A} (xs : list A) (r : Z) : result (list (list A)) :=
  if (r <? 0)%Z then raise ValueError else mret (combinations_nat xs (Z.to_nat r)).

(** [itertools.chain.from_iterable(gen)] over a generator whose items may
    raise while being produced: what is chained before the exception is
    still delivered, so the outcome is the delivered prefix and the
    exception that ended it, if any. *)
Fixpoint chain_from_iterable {A B} (gen : A → result (list B)) (xs : list A)
  : list B * option exn :=
  match xs with
  | [] => ([], None)
  | x :: xs' =>
      match gen x with
      | inl e => ([], Some e)
      | inr ys => let '(rest, e) := chain_from_iterable gen xs' in (ys ++ rest, e)
      end
  end.

(** *** [sorted]

    CPython's [list.sort] (2.x, and 3.x up to 3.11) on fewer than 64
    elements: the leading run is detected ([count_run]; a strictly
    descending run is reversed) and every later element is placed by binary
    insertion ([binarysort]).  The only comparison ever asked is [lt];
    longer lists, which CPython merges run by run, are sorted here the same
    way. *)
Section Sorted.
Context {A : Type} (lt : A → A → bool).

(** The length of the leading run of [x :: xs] that starts at [x]:
    [desc = true] while each element is [lt] its predecessor, [desc =
    false] while no element is. *)
Fixpoint run_length (desc : bool) (x : A) (xs : list A) : nat :=
  match xs with
  | [] => 1
  | y :: ys => if bool_decide (lt y x = desc) then S (run_length desc y ys) else 1
  end.

Definition count_run (xs : list A) : nat * bool :=
  match xs with
  | [] => (0, false)
  | [x] => (1, false)
  | x :: ((y :: _) as rest) => let desc := lt y x in (run_length desc x rest, desc)
  end.

(** Binary search for the slot of [pivot] in [a], between [l] and [r]. *)
Fixpoint bisect (fuel : nat) (pivot : A) (a : list A) (l r : nat) : nat :=
  match fuel with
  | O => l
  | S fuel' =>
      if bool_decide (l < r) then
        let p := l + (r - l) / 2 in
        match a !! p with
        | Some ap => if lt pivot ap then bisect fuel' pivot a l p
                     else bisect fuel' pivot a (S p) r
        | None => l
        end
      else l
  end.

Definition binary_insert (a : list A) (pivot : A) : list A :=
  let l := bisect (length a) pivot a 0 (length a) in
  take l a ++ pivot :: drop l a.

Definition sorted (xs : list A) : list A :=
  let '(n, desc) := count_run xs in
  let run := take n xs in
  fold_left binary_insert (drop n xs) (if desc then reverse run else run).
End Sorted.

(** ** Feature *)

(** An instance of a Feature subclass: [cls] is [__class__.__name__]. *)
Record Feature : Set := mkFeature {
  cls : string;
  positions : list Z
}.

#[global] Instance Feature_eq_dec : EqDecision Feature.
Proof. solve_decision. Defined.

(** Comparison of two tuples of ints: the first differing pair decides, and
    a proper prefix is smaller. *)
Fixpoint tuple_lt (a b : list Z) : bool :=
  match a, b with
  | _, [] => false
  | [], _ :: _ => true
  | x :: a', y :: b' => if (x =? y)%Z then tuple_lt a' b' else (x <? y)%Z
  end.

Definition positions_set (f : Feature) : gset Z := list_to_set (positions f).

Definition issuperset (self other : Feature) : bool :=
  bool_decide (cls self = cls other) && bool_decide (positions_set other ⊆ positions_set self).

Definition intersects (self other : Feature) : bool :=
  bool_decide (cls self = cls other) &&
  bool_decide (positions_set self ∩ positions_set other ≠ ∅).

Definition Feature_eq (self other : Feature) : bool :=
  bool_decide (cls self = cls other) && bool_decide (positions self = positions other).

Definition Feature_lt (self other : Feature) : bool :=
  String.ltb (cls self) (cls other) || tuple_lt (positions self) (positions other).

Definition Feature_ne (self other : Feature) : bool := negb (Feature_eq self other).
Definition Feature_gt (self other : Feature) : bool := Feature_lt other self.
Definition Feature_ge (self other : Feature) : bool := negb (Feature_lt self other).
Definition Feature_le (self other : Feature) : bool :=
  Feature_lt self other || Feature_eq self other.

(** [Feature.__repr__] *)
Definition Feature_repr (f : Feature) : string :=
  cls f +:+ "(" +:+ repr_list (positions f) +:+ ")".

(** The order the specification describes: subclass name first, positions
    second. *)
Definition name_then_positions_lt (a b : Feature) : bool :=
  String.ltb (cls a) (cls b) ||
  (bool_decide (cls a = cls b) && tuple_lt (positions a) (positions b)).

(** ** Arguments as the constructors receive them

    The constructors inspect what they are given, so their arguments are
    Python values: [None], ints, strings, tuples, lists, Feature instances,
    classes ([is_feature] tells whether the class is [Feature] or one of its
    subclasses) and instances of any other class. *)
#[warnings="-register-all"] Inductive pyval : Type :=
| PyNone
| PyInt (z : Z)
| PyStr (s : string)
| PyTuple (items : list pyval)
| PyList (items : list pyval)
| PyFeature (f : Feature)
| PyClass (name : string) (is_feature : bool)
| PyObject (class_name : string).

(** [isinstance(v, Feature)] and [isinstance(v, tuple)] *)
Definition isinstance_Feature (v : pyval) : bool :=
  match v with PyFeature _ => true | _ => false end.

Definition isinstance_tuple (v : pyval) : bool :=
  match v with PyTuple _ => true | _ => false end.

(** [issubclass(v, Feature)]: raises [TypeError] when [v] is not a class. *)
Definition issubclass_Feature (v : pyval) : result bool :=
  match v with
  | PyClass _ is_feature => mret is_feature
  | _ => raise TypeError
  end.

(** [for i in v]: the items of a list or tuple, the characters of a string;
    anything else is not iterable. *)
Definition iter (v : pyval) : result (list pyval) :=
  match v with
  | PyTuple items | PyList items => mret items
  | PyStr s => mret ((λ c, PyStr (String c "")) <$> list_ascii_of_string s)
  | _ => raise TypeError
  end.

Section Brill.
(** Python's [int] applied to a string: the integer the text denotes, or
    [None] where [int] raises [ValueError]. *)
Variable int_of_str : string → option Z.

(** [int(v)] *)
Definition int (v : pyval) : result Z :=
  match v with
  | PyInt z => mret z
  | PyStr s => match int_of_str s with
               | Some z => mret z
               | None => raise ValueError
               end
  | _ => raise TypeError
  end.

(** The body of the [try] in [Feature.__init__].  On anything but two
    ints, the comparison, [end+1] or [range] raises [TypeError]; this is
    the body on arguments that neither are nor hold a Feature instance, on
    which [>] would run the comparisons of [Feature] itself. *)
Definition interval (start end_ : pyval) : result (list Z) :=
  match start, end_ with
  | PyInt a, PyInt b => if (a >? b)%Z then raise TypeError else mret (range a (b + 1))
  | _, _ => raise TypeError
  end.

(** [Feature.__init__(self, positions, end=None)] on an instance of the
    subclass named [name]; an absent [end] is [PyNone]. *)
Definition Feature_init (name : string) (positions_ end_ : pyval) : result Feature :=
  match end_ with
  | PyNone =>
      items ← iter positions_;
      ints ← comprehension int items;
      mret (mkFeature name (sorted Z.ltb (elements (list_to_set ints : gset Z))))
  | _ =>
      ps ← except_TypeError_raise_ValueError (interval positions_ end_);
      mret (mkFeature name ps)
  end.

(** A call of a Feature subclass on the items of [tp]: [__init__] takes one or
    two arguments besides [self]. *)
Definition Feature_call (name : string) (tp : list pyval) : result Feature :=
  match tp with
  | [p] => Feature_init name p PyNone
  | [p; e] => Feature_init name p e
  | _ => raise TypeError
  end.

(** ["{0:s}".format(v)]: a string formats itself; a list, like every
    object that inherits [object.__format__], takes no format
    specification but the empty one and raises [TypeError] on the code
    [s]. *)
Definition format_s (v : pyval) : result string :=
  match v with
  | PyStr s => mret s
  | _ => raise TypeError
  end.

(** [Feature.expand(starts, winlens, excludezero)] called on the subclass
    named [name].  The message of the [ValueError] is built first, by
    formatting the list [winlens] with the code [s]. *)
Definition Feature_expand (name : string) (starts winlens : list Z) (excludezero : bool)
  : result (list Feature) :=
  if negb (forallb (λ x, (x >? 0)%Z) winlens) then
    msg ← format_s (PyList (PyInt <$> winlens));
    raise ValueError
  else
    let xs := w ← winlens; (λ i, slice starts i (i + w)) <$> range 0 (len starts - w + 1) in
    comprehension (λ x, Feature_init name (PyList (PyInt <$> x)) PyNone)
      (filter (λ x, ¬ (excludezero = true ∧ 0%Z ∈ x)) xs).

(** ** Template and its registry *)

Record Template : Type := mkTemplate {
  id : string;
  _features : list Feature
}.

(** The class attribute [ALLTEMPLATES], and beside it a record kept for
    the statements only: [created] lists every Template ever constructed, in
    construction order.  No operation reads [created]. *)
Record world : Type := mkWorld {
  ALLTEMPLATES : list Template;
  created : list Template
}.

Definition empty_world : world := mkWorld [] [].

Definition the_feature (v : pyval) : option Feature :=
  match v with PyFeature f => Some f | _ => None end.

Definition the_items (v : pyval) : list pyval :=
  match v with PyTuple items => items | _ => [] end.

(** The features a call [Template(features...)] settles on, before anything
    is registered. *)
Definition calling_form (features : list pyval) : result (list Feature) :=
  if forallb isinstance_Feature features then
    mret (omap the_feature features)
  else
    match features with
    | [] => raise IndexError
    | first :: rest =>
        is_sub ← issubclass_Feature first;
        if is_sub && forallb isinstance_tuple rest then
          match first with
          | PyClass name _ => comprehension (λ tp, Feature_call name (the_items tp)) rest
          | _ => raise TypeError
          end
        else raise TypeError
    end.

(** [Template.__init__]: the new Template on success. *)
Definition Template_init (features : list pyval) (w : world) : result Template * world :=
  match calling_form features with
  | inl e => (inl e, w)
  | inr fs =>
      let self := mkTemplate (format_03d (length (ALLTEMPLATES w))) fs in
      (inr self, mkWorld (ALLTEMPLATES w ++ [self]) (created w ++ [self]))
  end.

(** [Template.__repr__], which [str] falls back on. *)
Definition Template_repr (t : Template) : string :=
  "Template(" +:+ join "," (Feature_repr <$> _features t) +:+ ")".

(** [Template.poptemplate()] *)
Definition poptemplate (w : world) : option Template * world :=
  match reverse (ALLTEMPLATES w) with
  | [] => (None, w)
  | t :: before => (Some t, mkWorld (reverse before) (created w))
  end.

(** ** Rule enumeration and neighbourhoods *)

(** A token is a (word, tag) pair. *)
Definition token : Type := string * string.

Section Rules.
(** What a condition records is whatever the subclass extracts. *)
Context {value : Type}.

(** [extract_property] of the subclass named by the first argument, a
    static method of the whole sequence and an absolute index. *)
Variable extract_property : string → list token → Z → value.

(** [nltk.tag.brill.rule.Rule], built from the four values it is
    given. *)
Record Rule : Type := mkRule {
  templateid : string;
  original_tag : string;
  replacement_tag : string;
  conditions : list (Feature * value)
}.

(** [conditions[-1].append(c)] *)
Definition append_to_last {A} (conds : list (list A)) (c : A) : list (list A) :=
  match reverse conds with
  | [] => conds
  | last :: before => reverse before ++ [last ++ [c]]
  end.

(** [Template._applicable_conditions] and [Template.applicable_rules] *)
Definition _applicable_conditions (self : Template) (tokens : list token) (index : Z)
  : list (list (Feature * value)) :=
  fold_left
    (λ conds feature,
       fold_left
         (λ conds pos,
            if negb ((0 <=? index + pos)%Z && (index + pos <? len tokens)%Z) then conds
            else
              let v := extract_property (cls feature) tokens (index + pos) in
              append_to_last conds (feature, v))
         (positions feature) (conds ++ [[]]))
    (_features self) [].

Definition applicable_rules (self : Template) (tokens : list token) (index : Z)
  (correct_tag : string) : result (list Rule) :=
  tok ← getitem tokens index;
  if bool_decide (tok.2 = correct_tag) then mret []
  else
    let applicable_conditions := _applicable_conditions self tokens index in
    let xs := it_product applicable_conditions in
    mret ((λ x, mkRule (id self) tok.2 correct_tag x) <$> xs).

(** For the statements: the conditions one Feature contributes at [index],
    one for each of its positions that stays inside the sequence, in the
    order of the positions. *)
Definition condition_list (tokens : list token) (index : Z) (feature : Feature)
  : list (Feature * value) :=
  (λ p, (feature, extract_property (cls feature) tokens (index + p)%Z))
    <$> filter (λ p, (0 ≤ index + p < len tokens)%Z) (positions feature).
End Rules.

(** The same two methods over an [extract_property] that may raise, as the
    one [Feature] itself defines does: the exception leaves both loops and
    [applicable_rules]. *)
Section Rules_raising.
Context {value : Type}.

Variable extract_property : string → list token → Z → result value.

Definition _applicable_conditions_raising (self : Template) (tokens : list token)
  (index : Z) : result (list (list (Feature * value))) :=
  for_each
    (λ conds feature,
       for_each
         (λ conds pos,
            if negb ((0 <=? index + pos)%Z && (index + pos <? len tokens)%Z) then mret conds
            else
              v ← extract_property (cls feature) tokens (index + pos)%Z;
              mret (append_to_last conds (feature, v)))
         (positions feature) (conds ++ [[]]))
    (_features self) [].

Definition applicable_rules_raising (self : Template) (tokens : list token) (index : Z)
  (correct_tag : string) : result (list Rule) :=
  tok ← getitem tokens index;
  if bool_decide (tok.2 = correct_tag) then mret []
  else
    applicable_conditions ← _applicable_conditions_raising self tokens index;
    let xs := it_product applicable_conditions in
    mret ((λ x, mkRule (id self) tok.2 correct_tag x) <$> xs).
End Rules_raising.

(** [Feature.extract_property], which every subclass is to override. *)
Definition Feature_extract_property {value : Type} (name : string) (tokens : list token)
  (index : Z) : result value :=
  raise NotImplementedError.

(** [Template.get_neighborhood] *)
Definition get_neighborhood (self : Template) (tokens : list token) (index : Z) : gset Z :=
  let neighborhood : gset Z := {[ index ]} in
  let allpositions := feat ← _features self; positions feat in
  let start := py_min 0 allpositions in
  let end_ := py_max 0 allpositions in
  let s := Z.max 0 (index + - end_) in
  let e := Z.min (index + - start + 1) (len tokens) in
  fold_left (λ nb i, {[ i ]} ∪ nb) (range s e) neighborhood.

(** ** [Template.expand] *)

(** The [combinations] argument: [None], an int, or a pair of ints. *)
Inductive combinations_arg : Set :=
| CNone
| CInt (k : Z)
| CPair (k1 k2 : Z).

Definition combrange {A} (xs : list A) (k : combinations_arg) : Z * Z :=
  match k with
  | CNone => (1, len xs + 1)%Z
  | CInt k => (k, k + 1)%Z
  | CPair k1 k2 => (k1, k2 + 1)%Z
  end.

Definition nonempty_powerset {A} (combinations : combinations_arg) (xs : list A)
  : list (list A) * option exn :=
  let '(lo, hi) := combrange xs combinations in
  chain_from_iterable (it_combinations xs) (range lo hi).

(** [any(i != j and rel(x, y) for (i, x) in enumerate(pick) for (j, y) in
    enumerate(pick))] *)
Definition any_two (rel : Feature → Feature → bool) (pick : list Feature) : bool :=
  existsb (λ '(i, x), existsb (λ '(j, y), negb (i =? j)%nat && rel x y) (enumerate pick))
    (enumerate pick).

(** The generator's state between two candidates: the local
    [seentemplates], the Templates yielded so far, the exception that ended
    the generator (if one did) and the registry. *)
Record expanding : Type := mkExpanding {
  seentemplates : gset string;
  yielded : list Template;
  raised : option exn;
  now : world
}.

(** One pass through the body of the inner [for]. *)
Definition expand_body (skipintersecting : bool) (st : expanding) (pick : list Feature)
  : expanding :=
  match raised st with
  | Some _ => st
  | None =>
      if any_two issuperset pick then st
      else if skipintersecting && any_two intersects pick then st
      else
        match Template_init (PyFeature <$> sorted Feature_lt pick) (now st) with
        | (inl e, w) => mkExpanding (seentemplates st) (yielded st) (Some e) w
        | (inr thistemplate, w) =>
            let strpick := Template_repr thistemplate in
            if bool_decide (strpick ∈ seentemplates st) then
              mkExpanding (seentemplates st) (yielded st) None (poptemplate w).2
            else
              mkExpanding ({[ strpick ]} ∪ seentemplates st)
                (yielded st ++ [thistemplate]) None w
        end
  end.

(** The candidates the two nested [for]s go through, and the exception
    that [nonempty_powerset] ends on, if it does. *)
Definition candidates (featurelists : list (list Feature)) (combinations : combinations_arg)
  : list (list Feature) * option exn :=
  let '(pickss, e) := nonempty_powerset combinations featurelists in
  (picks ← pickss; it_product picks, e).

Definition expand_loop (skipintersecting : bool) (picks : list (list Feature)) (w : world)
  : expanding :=
  fold_left (expand_body skipintersecting) picks (mkExpanding ∅ [] None w).

(** [Template.expand], run until the generator is exhausted or raises: the
    Templates it yielded, the exception that ended it, and the registry it
    leaves. *)
Definition expand (featurelists : list (list Feature)) (combinations : combinations_arg)
  (skipintersecting : bool) (w : world) : list Template * option exn * world :=
  let '(picks, e) := candidates featurelists combinations in
  let st := expand_loop skipintersecting picks w in
  (yielded st, from_option Some e (raised st), now st).

(** ** Runs

    What a program does to the registry: it constructs Templates, calls
    [poptemplate], and consumes [expand] generators, each either to the end
    or until it is abandoned after [tried] candidates. *)
Inductive op : Type :=
| OpTemplate (features : list pyval)
| OpPoptemplate
| OpExpand (featurelists : list (list Feature)) (combinations : combinations_arg)
    (skipintersecting : bool) (tried : option nat).

Definition exec (w : world) (o : op) : world :=
  match o with
  | OpTemplate features => (Template_init features w).2
  | OpPoptemplate => (poptemplate w).2
  | OpExpand featurelists combinations skipintersecting tried =>
      let picks := (candidates featurelists combinations).1 in
      now (expand_loop skipintersecting (from_option (λ n, take n picks) picks tried) w)
  end.

Definition run (ops : list op) : world := fold_left exec ops empty_world.

Definition calls_poptemplate (o : op) : bool :=
  match o with OpPoptemplate => true | _ => false end.
End Brill.

(** * The vocabulary of the statements *)

(** Reading the digits back: [format_03d] loses nothing. *)
Definition read_decimal (s : string) : option nat :=
  Nat.of_uint <$> NilEmpty.uint_of_string s.

(** The two calling forms, as shapes of the argument tuple. *)
Definition features_form (args : list pyval) : Prop :=
  ∃ fs : list Feature, args = PyFeature <$> fs.

Definition class_then_tuples_form (args : list pyval) : Prop :=
  ∃ (name : string) (tps : list (list pyval)), args = PyClass name true :: (PyTuple <$> tps).

(** The second form as the specification words it: at least one tuple. *)
Definition class_then_some_tuples_form (args : list pyval) : Prop :=
  ∃ (name : string) (tp : list pyval) (tps : list (list pyval)),
    args = PyClass name true :: PyTuple tp :: (PyTuple <$> tps).

(** What the operations do to the registry, step by step: a Template is
    constructed and stays ([step_append]), a Template is constructed and at
    once undone by [expand] ([step_discard]), or the last Template is removed
    by a call of [poptemplate] from outside ([step_pop], present only when
    the flag is set). *)
Inductive registry_step : bool → world → world → Prop :=
| step_append (pops : bool) (w : world) (self : Template) :
    id self = format_03d (length (ALLTEMPLATES w)) →
    registry_step pops w (mkWorld (ALLTEMPLATES w ++ [self]) (created w ++ [self]))
| step_discard (pops : bool) (w : world) (self : Template) :
    id self = format_03d (length (ALLTEMPLATES w)) →
    registry_step pops w (mkWorld (ALLTEMPLATES w) (created w ++ [self]))
| step_pop (w : world) (ts : list Template) (t : Template) :
    ALLTEMPLATES w = ts ++ [t] →
    registry_step true w (mkWorld ts (created w)).

(** The registry holds at index [k] the Template whose id spells [k]. *)
Definition ids_by_index (w : world) : Prop :=
  ∀ (k : nat) (t : Template), ALLTEMPLATES w !! k = Some t → id t = format_03d k.

(** The ids handed out so far never decrease, none exceeds the registry's
    length, and the registry is what remains of the constructed Templates. *)
Definition ids_in_order (w : world) : Prop :=
  ∃ ns : list nat,
    id <$> created w = format_03d <$> ns ∧
    StronglySorted le ns ∧
    Forall (λ n, n ≤ length (ALLTEMPLATES w)) ns ∧
    sublist (ALLTEMPLATES w) (created w).

(** The Cartesian product of the pools, the first pool varying slowest. *)
Fixpoint cartesian_product {A} (pools : list (list A)) : list (list A) :=
  match pools with
  | [] => [[]]
  | pool :: rest => x ← pool; (x ::.) <$> cartesian_product rest
  end.

(** The offsets a Template looks at: 0 and every position of every
    Feature. *)
Definition all_offsets (self : Template) : list Z :=
  0%Z :: (feat ← _features self; positions feat).

(** The contiguous windows of [starts]: for each window length in turn,
    the slices of that length at the start indices 0, 1, ... for which the
    window still fits. *)
Definition windows (starts winlens : list Z) : list (list Z) :=
  w ← winlens;
  (λ i, take (Z.to_nat w) (drop i starts)) <$> seq 0 (S (length starts) - Z.to_nat w).

(** [f] is the Feature of subclass [name] over the ints [x]. *)
Definition built_over (name : string) (x : list Z) (f : Feature) : Prop :=
  cls f = name ∧ StronglySorted Z.lt (positions f) ∧ ∀ p, p ∈ positions f ↔ p ∈ x.

(** A pick of [expand]: one Feature out of each list of a selection of the
    feature lists, the selection keeping the order of the lists and holding
    at least [lo] and fewer than [hi] of them. *)
Definition picked_from (featurelists : list (list Feature)) (lo hi : Z)
  (pick : list Feature) : Prop :=
  ∃ picks : list (list Feature),
    sublist picks featurelists ∧ (lo ≤ len picks < hi)%Z ∧ Forall2 (∈) pick picks.

(** The two filters of [expand] on a pick. *)
Definition passes_filters (skipintersecting : bool) (pick : list Feature) : bool :=
  negb (any_two issuperset pick) && negb (skipintersecting && any_two intersects pick).

(** The sizes [combinations] allows for a selection out of the feature
    lists: 1 to n for [None], [k] for an int, [k1] to [k2] for a pair. *)
Definition size_allowed (featurelists : list (list Feature)) (combinations : combinations_arg)
  (n : nat) : Prop :=
  match combinations with
  | CNone => 1 ≤ n ≤ length featurelists
  | CInt k => Z.of_nat n = k
  | CPair k1 k2 => (k1 ≤ Z.of_nat n ≤ k2)%Z
  end.



(** The lexicographic order of tuples of ints, in words: [a] is a proper
    prefix of [b], or at the first place where the two differ [a] holds the
    smaller int. *)
Definition lexicographic_lt (a b : list Z) : Prop :=
  (∃ y rest, b = a ++ y :: rest) ∨
  (∃ common x y rest_a rest_b,
     a = common ++ x :: rest_a ∧ b = common ++ y :: rest_b ∧ (x < y)%Z).

(** A Python value that neither is nor holds a Feature instance. *)
Fixpoint holds_no_Feature (v : pyval) : bool :=
  match v with
  | PyFeature _ => false
  | PyTuple items | PyList items => forallb holds_no_Feature items
  | _ => true
  end.

(** The number of rules a Template has at [index] when the tag is wrong:
    the product, over its Features, of the number of positions that stay
    inside the sequence. *)
Definition rule_count (self : Template) (tokens : list token) (index : Z) : nat :=
  foldr (λ feature n,
           length (filter (λ p, (0 ≤ index + p < len tokens)%Z) (positions feature)) * n)
    1 (_features self).

(** An [extract_property] that reads nothing but the token it is pointed
    at. *)
Definition reads_only_its_token {value : Type}
  (extract_property : string → list token → Z → value) : Prop :=
  ∀ (name : string) (tokens tokens' : list token) (j : nat),
    tokens !! j = tokens' !! j →
    extract_property name tokens (Z.of_nat j) = extract_property name tokens' (Z.of_nat j).

(** ** Closed instances *)

Definition Word_0 : Feature := mkFeature "Word" [0%Z].

Definition Pos_1 : Feature := mkFeature "Pos" [1%Z].

Definition Word_1 : Feature := mkFeature "Word" [1%Z].

(** [int] on the plain decimal spellings, for the closed instances. *)
Definition int_of_decimal (s : string) : option Z := Z.of_int <$> NilZero.int_of_string s.

(** [extract_property] of two subclasses: [Word] reads the word, every
    other subclass the tag. *)
Definition word_or_tag (name : string) (tokens : list token) (i : Z) : string :=
  match tokens !! Z.to_nat i with
  | Some (word, tag) => if String.eqb name "Word" then word else tag
  | None => ""
  end.

(** The same extractor written with [tokens[index]], which raises where
    the index is out of range. *)
Definition word_or_tag_of_item (name : string) (tokens : list token) (i : Z)
  : result string :=
  tok ← getitem tokens i;
  mret (if String.eqb name "Word" then tok.1 else tok.2).

Definition the_old_man : list token := [("the", "DT"); ("old", "NN"); ("man", "NN")].

(** One [expand] that meets the Feature [Word([0])] in two feature lists. *)
Definition expand_with_repeat : list op :=
  [OpExpand [[Word_0]; [Word_0]; [Word_1]] CNone true None].

(** * Properties *)

(** ** [sorted] returns a rearrangement of its argument *)

Section Sorted_facts.
Context {A : Type} (lt : A → A → bool).

Lemma binary_insert_Permutation (a : list A) (pivot : A) :
  binary_insert lt a pivot ≡ₚ pivot :: a.
Proof.
  unfold binary_insert.
  rewrite <- Permutation_middle.
  by rewrite take_drop.
Qed.

Lemma fold_binary_insert_Permutation (xs acc : list A) :
  fold_left (binary_insert lt) xs acc ≡ₚ acc ++ xs.
Proof.
  revert acc. induction xs as [|x xs IH]; intros acc; simpl.
  - by rewrite app_nil_r.
  - rewrite IH, binary_insert_Permutation.
    by rewrite (Permutation_middle acc xs x).
Qed.

Lemma sorted_Permutation (xs : list A) : sorted lt xs ≡ₚ xs.
Proof.
  unfold sorted. destruct (count_run lt xs) as [n desc].
  rewrite fold_binary_insert_Permutation.
  destruct desc; rewrite ?reverse_Permutation; by rewrite take_drop.
Qed.

Lemma run_length_pos (desc : bool) (x : A) (xs : list A) :
  ∃ m, run_length lt desc x xs = S m.
Proof. destruct xs as [|y ys]; simpl; [eauto|]. case_bool_decide; eauto. Qed.

(** The run that [count_run] measures is a chain: each element compares
    to its predecessor the same way. *)
Lemma run_length_Sorted (desc : bool) (x : A) (xs : list A) :
  Sorted (λ a b, lt b a = desc) (take (run_length lt desc x xs) (x :: xs)).
Proof.
  revert x. induction xs as [|y ys IH]; intros x; simpl.
  - repeat constructor.
  - case_bool_decide as Hyx; [|repeat constructor].
    specialize (IH y). destruct (run_length_pos desc y ys) as [m Hm].
    rewrite Hm in IH |- *. simpl in *.
    constructor; [done|by constructor].
Qed.
End Sorted_facts.

(** ** On ints, [sorted] sorts *)

Lemma StronglySorted_lookup_le (a : list Z) (i j : nat) (x y : Z) :
  StronglySorted Z.le a → i ≤ j → a !! i = Some x → a !! j = Some y → (x ≤ y)%Z.
Proof.
  intros Ha. revert i j. induction Ha as [|z a Ha IH Hz]; intros i j Hij Hi Hj.
  - by rewrite lookup_nil in Hi.
  - destruct i as [|i], j as [|j]; simpl in *; simplify_eq; try lia.
    + rewrite Forall_forall in Hz. apply Hz. by eapply list_elem_of_lookup_2.
    + eapply (IH i j); [lia|done..].
Qed.

Lemma bisect_unfold {A} (lt : A → A → bool) fuel pivot a l r :
  bisect lt (S fuel) pivot a l r =
    if bool_decide (l < r) then
      match a !! (l + (r - l) / 2) with
      | Some ap => if lt pivot ap then bisect lt fuel pivot a l (l + (r - l) / 2)
                   else bisect lt fuel pivot a (S (l + (r - l) / 2)) r
      | None => l
      end
    else l.
Proof. reflexivity. Qed.

(** The search never runs out of steps: once the fuel covers the interval,
    more fuel changes nothing, whatever [lt] answers. *)
Lemma bisect_enough_fuel {A} (lt : A → A → bool) (fuel fuel' : nat) (pivot : A)
  (a : list A) (l r : nat) :
  r - l ≤ fuel → r - l ≤ fuel' →
  bisect lt fuel pivot a l r = bisect lt fuel' pivot a l r.
Proof.
  revert fuel' l r. induction fuel as [|fuel IH]; intros fuel' l r Hfuel Hfuel'.
  - destruct fuel' as [|fuel']; [done|]. rewrite bisect_unfold.
    by rewrite bool_decide_eq_false_2 by lia.
  - rewrite bisect_unfold. case_bool_decide as Hlt.
    + destruct fuel' as [|fuel']; [lia|]. rewrite bisect_unfold.
      rewrite bool_decide_eq_true_2 by done.
      pose proof (Nat.Div0.div_lt_upper_bound (r - l) 2 (r - l)).
      destruct (a !! (l + (r - l) / 2)); [|done].
      destruct (lt pivot a0); apply IH; lia.
    + destruct fuel' as [|fuel']; [done|]. rewrite bisect_unfold.
      by rewrite bool_decide_eq_false_2 by done.
Qed.

Lemma bisect_spec (fuel : nat) (pivot : Z) (a : list Z) (l r : nat) :
  StronglySorted Z.le a →
  l ≤ r ≤ length a →
  r - l ≤ fuel →
  (∀ i x, i < l → a !! i = Some x → (x ≤ pivot)%Z) →
  (∀ i x, r ≤ i → a !! i = Some x → (pivot < x)%Z) →
  let m := bisect Z.ltb fuel pivot a l r in
  m ≤ length a ∧
  (∀ i x, i < m → a !! i = Some x → (x ≤ pivot)%Z) ∧
  (∀ i x, m ≤ i → a !! i = Some x → (pivot < x)%Z).
Proof.
  intros Ha. revert l r.
  induction fuel as [|fuel IH]; intros l r Hlr Hfuel Hlo Hhi; cbv zeta.
  - assert (l = r) as -> by lia. simpl. split; [lia|done].
  - rewrite bisect_unfold. case_bool_decide as Hlt; [|assert (l = r) as -> by lia; split; [lia|done]].
    assert (l ≤ l + (r - l) / 2 < r) as Hp.
    { pose proof (Nat.Div0.div_lt_upper_bound (r - l) 2 (r - l)). lia. }
    destruct (lookup_lt_is_Some_2 a (l + (r - l) / 2)) as [ap Hap]; [lia|].
    rewrite Hap. destruct (Z.ltb_spec pivot ap) as [Hcmp|Hcmp].
    + apply IH; [lia|lia|done|].
      intros i x Hi Hx. pose proof (StronglySorted_lookup_le a _ i ap x Ha Hi Hap Hx). lia.
    + apply IH; [lia|lia| |done].
      intros i x Hi Hx.
      assert (i ≤ l + (r - l) / 2) as Hip by lia.
      pose proof (StronglySorted_lookup_le a i _ x ap Ha Hip Hx Hap). lia.
Qed.

Lemma binary_insert_StronglySorted (a : list Z) (pivot : Z) :
  StronglySorted Z.le a → StronglySorted Z.le (binary_insert Z.ltb a pivot).
Proof.
  intros Ha. unfold binary_insert.
  destruct (bisect_spec (length a) pivot a 0 (length a) Ha) as (Hm & Hlo & Hhi);
    [lia|lia|lia| |].
  { intros i x Hi Hx. apply lookup_lt_Some in Hx. lia. }
  set (m := bisect Z.ltb (length a) pivot a 0 (length a)) in *.
  rewrite <- (take_drop m a) in Ha. apply StronglySorted_app in Ha as (Hcross & Htake & Hdrop).
  apply StronglySorted_app_2; [|done|].
  - intros x1 x2 Hx1 Hx2.
    apply list_elem_of_lookup in Hx1 as [i Hi].
    assert (x1 ≤ pivot)%Z as Hx1.
    { rewrite lookup_take_Some in Hi. destruct Hi as [Hi ?]. by eapply Hlo. }
    apply elem_of_cons in Hx2 as [->|Hx2]; [done|].
    apply list_elem_of_lookup in Hx2 as [j Hj]. rewrite lookup_drop in Hj.
    pose proof (Hhi (m + j) x2 ltac:(lia) Hj). lia.
  - apply StronglySorted_cons. split; [|done].
    apply Forall_forall. intros x Hx.
    apply list_elem_of_lookup in Hx as [j Hj]. rewrite lookup_drop in Hj.
    pose proof (Hhi (m + j) x ltac:(lia) Hj). lia.
Qed.

Lemma Sorted_mono {A} (R R' : relation A) (l : list A) :
  (∀ a b, R a b → R' a b) → Sorted R l → Sorted R' l.
Proof.
  intros HR. induction 1 as [|x l _ IH Hhd]; constructor; [done|].
  destruct Hhd; constructor; auto.
Qed.

Lemma count_run_StronglySorted (xs : list Z) :
  let '(n, desc) := count_run Z.ltb xs in
  StronglySorted Z.le (if desc then reverse (take n xs) else take n xs).
Proof.
  destruct xs as [|x [|y rest]].
  - constructor.
  - repeat constructor.
  - change (count_run Z.ltb (x :: y :: rest))
      with (run_length Z.ltb (y <? x)%Z x (y :: rest), (y <? x)%Z).
    pose proof (run_length_Sorted Z.ltb (y <? x)%Z x (y :: rest)) as Hrun.
    revert Hrun. destruct (y <? x)%Z; intros Hrun.
    + apply Sorted_reverse in Hrun. apply Sorted_StronglySorted; [apply _|].
      eapply Sorted_mono; [|exact Hrun].
      intros a b Hab. unfold flip in Hab. apply Z.ltb_lt in Hab. lia.
    + apply Sorted_StronglySorted; [apply _|].
      eapply Sorted_mono; [|exact Hrun].
      intros a b Hab. simpl in Hab. apply Z.ltb_ge in Hab. lia.
Qed.

Lemma sorted_StronglySorted (xs : list Z) : StronglySorted Z.le (sorted Z.ltb xs).
Proof.
  unfold sorted.
  assert (∀ ys acc, StronglySorted Z.le acc →
            StronglySorted Z.le (fold_left (binary_insert Z.ltb) ys acc)) as Hfold.
  { induction ys as [|y ys IH]; intros acc Hacc; simpl; [done|].
    apply IH. by apply binary_insert_StronglySorted. }
  pose proof (count_run_StronglySorted xs) as Hrun.
  destruct (count_run Z.ltb xs) as [n desc]. by apply Hfold.
Qed.

Lemma StronglySorted_le_NoDup_lt (l : list Z) :
  StronglySorted Z.le l → NoDup l → StronglySorted Z.lt l.
Proof.
  induction 1 as [|x l _ IH Hx]; intros Hnd; [constructor|].
  apply NoDup_cons in Hnd as [Hnotin Hnd].
  constructor; [by apply IH|].
  rewrite Forall_forall in Hx |- *. intros y Hy.
  assert (x ≠ y) by (intros ->; done).
  specialize (Hx y Hy). lia.
Qed.

Lemma StronglySorted_seqZ (a : Z) (n : Z) : StronglySorted Z.lt (seqZ a n).
Proof.
  unfold seqZ. generalize (Z.to_nat n) as k. intros k.
  assert (∀ j, StronglySorted Z.lt ((λ i : nat, (Z.of_nat i + a)%Z) <$> seq j k)) as H.
  { induction k as [|k IH]; intros j; simpl; [constructor|].
    constructor; [apply IH|].
    apply Forall_fmap, Forall_forall. intros i Hi. apply elem_of_seq in Hi. simpl. lia. }
  apply H.
Qed.

(** What [tuple(sorted(set(ints)))] holds: the members of [ints], each
    once, in increasing order. *)
Lemma sorted_set_spec (ints : list Z) :
  let ps := sorted Z.ltb (elements (list_to_set ints : gset Z)) in
  StronglySorted Z.lt ps ∧ ∀ p, p ∈ ps ↔ p ∈ ints.
Proof.
  cbv zeta. split.
  - apply StronglySorted_le_NoDup_lt; [apply sorted_StronglySorted|].
    rewrite sorted_Permutation. apply NoDup_elements.
  - intros p. rewrite sorted_Permutation, elem_of_elements. apply elem_of_list_to_set.
Qed.

(** ** The comparisons of Features *)

(** C3.  The claim reads [<] on Features as the strict total order by
    subclass name first and positions second.  [Feature.__lt__] is the
    disjunction of the two comparisons without the test that the names are
    equal: [Word([0]) < Pos([1])] holds through the positions although
    ["Word"] sorts after ["Pos"], so it differs from the order of the claim,
    and [Pos([1]) < Word([0])] holds as well, so it is not a strict order;
    the sibling comparisons disagree with one another on the same pair
    ([>] holds while [>=] does not). *)
Theorem Feature_lt_holds_both_ways :
  Feature_lt Word_0 Pos_1 = true ∧
  Feature_lt Pos_1 Word_0 = true ∧
  name_then_positions_lt Word_0 Pos_1 = false ∧
  Feature_gt Word_0 Pos_1 = true ∧
  Feature_ge Word_0 Pos_1 = false.
Proof. repeat split; reflexivity. Qed.

Section Construction_facts.
Variable int_of_str : string → option Z.

(** ** [Feature.__init__] *)

Lemma comprehension_int_PyInt (xs : list Z) :
  comprehension (int int_of_str) (PyInt <$> xs) = inr xs.
Proof. induction xs as [|x xs IH]; csimpl; [done|]. by rewrite IH. Qed.

Lemma Feature_init_ints (name : string) (xs : list Z) :
  Feature_init int_of_str name (PyList (PyInt <$> xs)) PyNone =
    inr (mkFeature name (sorted Z.ltb (elements (list_to_set xs : gset Z)))).
Proof. unfold Feature_init. simpl. by rewrite comprehension_int_PyInt. Qed.

(** The contiguous form: [start > end] is a [ValueError], otherwise the
    positions are [start .. end]. *)
Lemma Feature_init_interval (name : string) (a b : Z) :
  Feature_init int_of_str name (PyInt a) (PyInt b) =
    if (a >? b)%Z then inl ValueError else inr (mkFeature name (range a (b + 1))).
Proof. unfold Feature_init, interval. by destruct (a >? b)%Z. Qed.

(** Given values that neither are nor hold a Feature instance, the
    contiguous form raises nothing but [ValueError]. *)
Lemma Feature_init_interval_raises (name : string) (p e : pyval) (x : exn) :
  holds_no_Feature p = true → holds_no_Feature e = true →
  e ≠ PyNone → Feature_init int_of_str name p e = inl x → x = ValueError.
Proof.
  intros _ _ He. unfold Feature_init.
  assert (∀ r : result (list Z),
            (ps ← except_TypeError_raise_ValueError r; mret (mkFeature name ps)) = inl x →
            (∀ y, r = inl y → y = TypeError) → x = ValueError) as Hwrap.
  { intros [y|ps] Hr Hy; [|done].
    pose proof (Hy y eq_refl) as ->. cbv in Hr. by simplify_eq. }
  destruct e; try done; intros Hr; (eapply Hwrap; [exact Hr|]);
    intros y; unfold interval; repeat case_match; by intros [= <-].
Qed.

(** A Feature that was constructed holds increasing, hence distinct,
    positions. *)
Lemma Feature_init_positions_sorted (name : string) (p e : pyval) (f : Feature) :
  Feature_init int_of_str name p e = inr f →
  cls f = name ∧ StronglySorted Z.lt (positions f).
Proof.
  unfold Feature_init. intros Hf.
  assert (∀ r : result (list Z),
            (ps ← except_TypeError_raise_ValueError r; mret (mkFeature name ps)) = inr f →
            (∀ ps, r = inr ps → StronglySorted Z.lt ps) →
            cls f = name ∧ StronglySorted Z.lt (positions f)) as Hwrap.
  { intros [y|ps] Hr Hps; simpl in Hr; [by destruct y|].
    injection Hr as <-. split; [done|]. by apply Hps. }
  assert (∀ ps, interval p e = inr ps → StronglySorted Z.lt ps) as Hint.
  { intros ps. unfold interval. repeat case_match; try done.
    intros [= <-]. apply StronglySorted_seqZ. }
  destruct e; try (by eapply Hwrap).
  destruct (iter p) as [y|items]; simpl in Hf; [done|].
  destruct (comprehension (int int_of_str) items) as [y|ints]; simpl in Hf; [done|].
  injection Hf as <-. split; [done|]. apply sorted_set_spec.
Qed.

(** C9.  The claim has every construction from positions that are not
    coercible to integers fail with a validation error ([ValueError]), as
    the docstring promises for every illegal specification and as the
    contiguous form arranges by catching [TypeError].  The list form has
    no such [try]: in [Feature([None])], [int(None)] raises [TypeError] and
    that is what the constructor raises. *)
Theorem Feature_init_None_position_TypeError (name : string) :
  Feature_init int_of_str name (PyList [PyNone]) PyNone = inl TypeError.
Proof. reflexivity. Qed.
End Construction_facts.

(** ** Template ids *)

Lemma read_decimal_zeros (k : nat) (s : string) :
  read_decimal (zeros k +:+ s) = read_decimal s.
Proof.
  induction k as [|k IH]; [done|].
  change (zeros (S k) +:+ s) with (String "0" (zeros k +:+ s)).
  unfold read_decimal in *. simpl.
  destruct (NilEmpty.uint_of_string (zeros k +:+ s)) as [d|],
    (NilEmpty.uint_of_string s) as [d'|]; simplify_eq/=; try done.
  f_equal. done.
Qed.

Lemma read_decimal_format_03d (n : nat) : read_decimal (format_03d n) = Some n.
Proof.
  unfold format_03d. rewrite read_decimal_zeros. unfold read_decimal.
  pose proof (DecimalNat.Unsigned.of_to n) as Hn.
  destruct (Nat.to_uint n) as [| | | | | | | | | |] eqn:Hd;
    try (unfold NilZero.string_of_uint; rewrite NilEmpty.usu; simpl; by f_equal).
  simpl in *. by f_equal.
Qed.

Lemma format_03d_inj (n m : nat) : format_03d n = format_03d m → n = m.
Proof.
  intros H. apply (f_equal read_decimal) in H.
  rewrite !read_decimal_format_03d in H. by simplify_eq.
Qed.

Lemma forallb_isinstance_Feature (args : list pyval) :
  forallb isinstance_Feature args = true → features_form args.
Proof.
  induction args as [|v args IH]; simpl.
  - by exists [].
  - intros [Hv Hargs]%andb_prop. destruct (IH Hargs) as [fs ->].
    destruct v; try done. by exists (f :: fs).
Qed.

Lemma forallb_isinstance_tuple (args : list pyval) :
  forallb isinstance_tuple args = true → ∃ tps, args = PyTuple <$> tps.
Proof.
  induction args as [|v args IH]; simpl.
  - by exists [].
  - intros [Hv Hargs]%andb_prop. destruct (IH Hargs) as [tps ->].
    destruct v; try done. by exists (items :: tps).
Qed.

Lemma omap_the_feature (fs : list Feature) : omap the_feature (PyFeature <$> fs) = fs.
Proof. induction fs as [|f fs IH]; csimpl; [done|]. by rewrite IH. Qed.

Section Registry_facts.
Variable int_of_str : string → option Z.

Lemma calling_form_features (fs : list Feature) :
  calling_form int_of_str (PyFeature <$> fs) = inr fs.
Proof.
  unfold calling_form.
  assert (forallb isinstance_Feature (PyFeature <$> fs) = true) as ->.
  { induction fs; csimpl; auto. }
  by rewrite omap_the_feature.
Qed.

Lemma Template_init_features (fs : list Feature) (w : world) :
  Template_init int_of_str (PyFeature <$> fs) w =
    let self := mkTemplate (format_03d (length (ALLTEMPLATES w))) fs in
    (inr self, mkWorld (ALLTEMPLATES w ++ [self]) (created w ++ [self])).
Proof. unfold Template_init. by rewrite calling_form_features. Qed.

(** A construction either raises and leaves the registry alone, or appends
    the new Template, whose id is the registry's length just before. *)
Lemma Template_init_cases (features : list pyval) (w : world) :
  (∃ e, Template_init int_of_str features w = (inl e, w)) ∨
  (∃ self, Template_init int_of_str features w =
             (inr self, mkWorld (ALLTEMPLATES w ++ [self]) (created w ++ [self])) ∧
           id self = format_03d (length (ALLTEMPLATES w))).
Proof.
  unfold Template_init. destruct (calling_form int_of_str features) as [e|fs].
  - left. by exists e.
  - right. eexists. split; done.
Qed.

Lemma poptemplate_snoc (ts cs : list Template) (t : Template) :
  poptemplate (mkWorld (ts ++ [t]) cs) = (Some t, mkWorld ts cs).
Proof.
  unfold poptemplate. simpl. rewrite reverse_snoc. simpl. by rewrite reverse_involutive.
Qed.

Lemma poptemplate_cases (w : world) :
  (ALLTEMPLATES w = [] ∧ poptemplate w = (None, w)) ∨
  (∃ ts t, ALLTEMPLATES w = ts ++ [t] ∧ poptemplate w = (Some t, mkWorld ts (created w))).
Proof.
  destruct w as [ts cs]. destruct (decide (ts = [])) as [->|Hne]; [by left|right].
  destruct (reverse ts) as [|t before] eqn:Hrev.
  { apply (f_equal reverse) in Hrev. rewrite reverse_involutive in Hrev. done. }
  exists (reverse before), t. simpl.
  assert (ts = reverse before ++ [t]) as ->.
  { apply (f_equal reverse) in Hrev. by rewrite reverse_involutive, reverse_cons in Hrev. }
  split; [done|]. apply poptemplate_snoc.
Qed.

(** C8, amended.  Handed something that is neither a tuple of Feature
    instances nor a Feature subclass followed by tuples only, the
    constructor raises [TypeError] and the registry is what it was. *)
Theorem Template_init_usage_error (features : list pyval) (w : world) :
  ¬ features_form features →
  ¬ class_then_tuples_form features →
  Template_init int_of_str features w = (inl TypeError, w).
Proof.
  intros Ha Hb. unfold Template_init, calling_form.
  destruct (forallb isinstance_Feature features) eqn:Hall.
  { destruct Ha. by apply forallb_isinstance_Feature. }
  destruct features as [|first rest]; [done|].
  destruct first as [| | | | | |name is_feature|]; try done.
  simpl. destruct is_feature; [|done].
  destruct (forallb isinstance_tuple rest) eqn:Htuples; [|done].
  destruct Hb. apply forallb_isinstance_tuple in Htuples as [tps ->].
  by exists name, tps.
Qed.
End Registry_facts.

Lemma Template_init_usage_error_witness :
  Template_init int_of_decimal [PyInt 3; PyTuple [PyInt 0; PyInt 1]] empty_world =
    (inl TypeError, empty_world).
Proof.
  apply Template_init_usage_error.
  - intros [[|f fs] Hfs]; discriminate Hfs.
  - intros (name & tps & Htps). discriminate Htps.
Defined.

(** C8, as the claim words it: a Feature subclass that no tuple follows is
    neither of the two forms of the claim, yet [Template(Word)] raises
    nothing; it constructs a Template without features and registers it. *)
Lemma Template_of_bare_class_is_registered :
  ¬ features_form [PyClass "Word" true] ∧
  ¬ class_then_some_tuples_form [PyClass "Word" true] ∧
  Template_init int_of_decimal [PyClass "Word" true] empty_world =
    (inr (mkTemplate "000" []),
     mkWorld [mkTemplate "000" []] [mkTemplate "000" []]).
Proof.
  split; [|split].
  - intros [[|f fs] Hfs]; discriminate Hfs.
  - intros (name & tp & tps & Htps). discriminate Htps.
  - reflexivity.
Qed.

(** ** The registry along a run *)

Lemma registry_step_weaken (pops : bool) (w w' : world) :
  registry_step false w w' → registry_step pops w w'.
Proof. inversion 1; subst; by constructor. Qed.

Lemma ids_by_index_step (pops : bool) (w w' : world) :
  registry_step pops w w' → ids_by_index w → ids_by_index w'.
Proof.
  intros Hstep Hw k t. destruct Hstep as [pops w self Hid|pops w self Hid|w ts t' Hts]; simpl.
  - intros Hk. apply lookup_app_Some in Hk as [Hk|[Hlen Hk]]; [by apply Hw|].
    apply list_lookup_singleton_Some in Hk as [Hk ->].
    rewrite Hid. f_equal. lia.
  - apply Hw.
  - intros Hk. apply Hw. rewrite Hts. by apply lookup_app_l_Some.
Qed.

Lemma ids_in_order_step (w w' : world) :
  registry_step false w w' → ids_in_order w → ids_in_order w'.
Proof.
  intros Hstep (ns & Hids & Hsorted & Hbound & Hsub).
  inversion Hstep as [pops w0 self Hid|pops w0 self Hid|]; subst; simpl;
    exists (ns ++ [length (ALLTEMPLATES w)]); simpl.
  - split_and!.
    + rewrite !fmap_app, Hids. csimpl. by rewrite Hid.
    + apply StronglySorted_app_2; [|done|repeat constructor].
      intros n m Hn ->%list_elem_of_singleton.
      rewrite Forall_forall in Hbound. by apply Hbound.
    + rewrite length_app. simpl. apply Forall_app. split; [|repeat constructor; lia].
      eapply Forall_impl; [exact Hbound|]. simpl. lia.
    + by apply sublist_app.
  - split_and!.
    + rewrite !fmap_app, Hids. csimpl. by rewrite Hid.
    + apply StronglySorted_app_2; [|done|repeat constructor].
      intros n m Hn ->%list_elem_of_singleton.
      rewrite Forall_forall in Hbound. by apply Hbound.
    + apply Forall_app. split; [done|]. repeat constructor.
    + by apply sublist_inserts_r.
Qed.

Lemma ids_by_index_steps (pops : bool) (w w' : world) :
  rtc (registry_step pops) w w' → ids_by_index w → ids_by_index w'.
Proof. induction 1; eauto using ids_by_index_step. Qed.

Lemma ids_in_order_steps (w w' : world) :
  rtc (registry_step false) w w' → ids_in_order w → ids_in_order w'.
Proof. induction 1; eauto using ids_in_order_step. Qed.

Lemma ids_by_index_NoDup (w : world) : ids_by_index w → NoDup (id <$> ALLTEMPLATES w).
Proof.
  intros Hw. apply NoDup_alt. intros i j s Hi Hj.
  apply list_lookup_fmap_Some in Hi as (ti & -> & Hti).
  apply list_lookup_fmap_Some in Hj as (tj & Heq & Htj).
  apply Hw in Hti, Htj. rewrite Hti, Htj in Heq. by apply format_03d_inj.
Qed.

Section Run_facts.
Variable int_of_str : string → option Z.

Lemma Template_init_steps (pops : bool) (features : list pyval) (w : world) :
  rtc (registry_step pops) w (Template_init int_of_str features w).2.
Proof.
  destruct (Template_init_cases int_of_str features w) as [[e ->]|(self & -> & Hid)]; simpl.
  - done.
  - apply rtc_once. by constructor.
Qed.

Lemma poptemplate_steps (w : world) : rtc (registry_step true) w (poptemplate w).2.
Proof.
  destruct (poptemplate_cases w) as [[_ ->]|(ts & t & Hts & ->)]; simpl; [done|].
  apply rtc_once. by econstructor.
Qed.

(** One candidate: nothing happens to the registry, or the Template built
    from the sorted pick is appended, or it is built and undone. *)
Lemma expand_body_steps (pops skip : bool) (st : expanding) (pick : list Feature) :
  rtc (registry_step pops) (now st) (now (expand_body int_of_str skip st pick)).
Proof.
  unfold expand_body. destruct (raised st); [done|].
  destruct (any_two issuperset pick); [done|].
  destruct (skip && any_two intersects pick); [done|].
  rewrite Template_init_features. cbv beta iota zeta.
  case_bool_decide; simpl.
  - rewrite poptemplate_snoc. simpl. apply rtc_once. by constructor.
  - apply rtc_once. by constructor.
Qed.

Lemma fold_expand_body_steps (pops skip : bool) (picks : list (list Feature))
  (st : expanding) :
  rtc (registry_step pops) (now st)
    (now (fold_left (expand_body int_of_str skip) picks st)).
Proof.
  revert st. induction picks as [|pick picks IH]; intros st; simpl; [done|].
  etrans; [apply expand_body_steps|apply IH].
Qed.

Lemma exec_steps (w : world) (o : op) :
  rtc (registry_step (calls_poptemplate o)) w (exec int_of_str w o).
Proof.
  destruct o; simpl.
  - apply Template_init_steps.
  - apply poptemplate_steps.
  - apply (fold_expand_body_steps _ _ _ (mkExpanding ∅ [] None w)).
Qed.

Lemma run_steps (ops : list op) :
  rtc (registry_step true) empty_world (run int_of_str ops).
Proof.
  unfold run. induction ops as [|o ops IH] using rev_ind; [done|].
  rewrite fold_left_app. simpl. etrans; [apply IH|].
  pose proof (exec_steps (fold_left (exec int_of_str) ops empty_world) o) as Hsteps.
  destruct o; simpl in Hsteps; try done;
    (eapply rtc_subrel; [|exact Hsteps]); intros ??; apply registry_step_weaken.
Qed.

Lemma run_steps_without_poptemplate (ops : list op) :
  Forall (λ o, calls_poptemplate o = false) ops →
  rtc (registry_step false) empty_world (run int_of_str ops).
Proof.
  unfold run. induction ops as [|o ops IH] using rev_ind; intros Hops; [done|].
  apply Forall_app in Hops as [Hops Ho]. apply Forall_inv in Ho. simpl in Ho.
  rewrite fold_left_app. simpl. etrans; [by apply IH|].
  pose proof (exec_steps (fold_left (exec int_of_str) ops empty_world) o) as Hsteps.
  destruct o; [exact Hsteps|discriminate Ho|exact Hsteps].
Qed.

(** C10.  However Templates were constructed, popped and expanded since
    the registry was empty, the Template at index [k] of the registry has
    the id that spells [k] in three digits or more, so its id is borne by
    no Template at another index. *)
Theorem registry_ids_by_index (ops : list op) (k : nat) (t : Template) :
  ALLTEMPLATES (run int_of_str ops) !! k = Some t →
  id t = format_03d k ∧
  ∀ (k' : nat) (t' : Template),
    ALLTEMPLATES (run int_of_str ops) !! k' = Some t' → k' ≠ k → id t' ≠ id t.
Proof.
  assert (ids_by_index (run int_of_str ops)) as Hinv.
  { eapply ids_by_index_steps; [apply run_steps|]. intros j s Hj. done. }
  intros Hk. split; [by apply Hinv|].
  intros k' t' Hk' Hne Heq. apply Hinv in Hk, Hk'.
  rewrite Hk, Hk' in Heq. by apply format_03d_inj in Heq.
Qed.

(** C7, amended.  Every Template's id is the registry's length at its
    construction, padded with zeros to three digits.  Over a run in which
    the registry shrinks only through the undo-last of [expand], the ids
    never decrease in construction order, the registry is what remains of
    the constructed Templates, and no two Templates that remain registered
    share an id. *)
Theorem ids_never_decrease (ops : list op) :
  Forall (λ o, calls_poptemplate o = false) ops →
  (∀ features w self w',
     Template_init int_of_str features w = (inr self, w') →
     id self = format_03d (length (ALLTEMPLATES w)) ∧
     ALLTEMPLATES w' = ALLTEMPLATES w ++ [self]) ∧
  (∃ ns : list nat,
     id <$> created (run int_of_str ops) = format_03d <$> ns ∧
     StronglySorted le ns) ∧
  sublist (ALLTEMPLATES (run int_of_str ops)) (created (run int_of_str ops)) ∧
  NoDup (id <$> ALLTEMPLATES (run int_of_str ops)).
Proof.
  intros Hops. split_and!.
  - intros features w self w' Hinit.
    destruct (Template_init_cases int_of_str features w) as [[e He]|(self' & Hs & Hid)];
      rewrite Hinit in *; by simplify_eq.
  - destruct (ids_in_order_steps empty_world (run int_of_str ops)) as (ns & ? & ? & _);
      [by apply run_steps_without_poptemplate| |by exists ns].
    exists []. split_and!; by constructor.
  - destruct (ids_in_order_steps empty_world (run int_of_str ops)) as (ns & _ & _ & _ & ?);
      [by apply run_steps_without_poptemplate| |done].
    exists []. split_and!; by constructor.
  - apply ids_by_index_NoDup.
    eapply ids_by_index_steps; [apply run_steps|]. intros j s Hj. done.
Qed.
End Run_facts.

(** ** What [expand] yields *)

Lemma issuperset_spec (X Y : Feature) :
  issuperset X Y = true ↔ cls X = cls Y ∧ positions Y ⊆ positions X.
Proof.
  unfold issuperset, positions_set.
  rewrite andb_true_iff, !bool_decide_eq_true.
  split; intros [Hcls Hsub]; (split; [done|]).
  - intros p Hp. apply (elem_of_list_to_set (C := gset Z)).
    apply Hsub. by apply elem_of_list_to_set.
  - intros p Hp%elem_of_list_to_set. apply elem_of_list_to_set. by apply Hsub.
Qed.

(** [any_two rel pick] answers whether [rel] relates the Features at two
    different places of [pick]. *)
Lemma any_two_true (rel : Feature → Feature → bool) (pick : list Feature)
  (i j : nat) (x y : Feature) :
  pick !! i = Some x → pick !! j = Some y → i ≠ j → rel x y = true →
  any_two rel pick = true.
Proof.
  intros Hi Hj Hij Hrel. unfold any_two, enumerate.
  apply existsb_exists. exists (i, x). split.
  { apply list_elem_of_In. by apply (elem_of_lookup_imap_2 pair). }
  apply existsb_exists. exists (j, y). split.
  { apply list_elem_of_In. by apply (elem_of_lookup_imap_2 pair). }
  rewrite Hrel, andb_true_r. apply negb_true_iff. by apply Nat.eqb_neq.
Qed.

Section Expand_facts.
Variable int_of_str : string → option Z.

(** A Template that has been yielded was built from a candidate that
    passed the filters, sorted. *)
Lemma expand_body_yielded (skip : bool) (st : expanding) (pick : list Feature)
  (t : Template) :
  t ∈ yielded (expand_body int_of_str skip st pick) →
  t ∈ yielded st ∨
  (any_two issuperset pick = false ∧
   (skip = true → any_two intersects pick = false) ∧
   _features t = sorted Feature_lt pick).
Proof.
  unfold expand_body. destruct (raised st); [by left|].
  destruct (any_two issuperset pick) eqn:Hsup; [by left|].
  destruct (skip && any_two intersects pick) eqn:Hint; [by left|].
  rewrite Template_init_features. cbv beta iota zeta.
  case_bool_decide; simpl; [by left|].
  intros [Ht| ->%list_elem_of_singleton]%elem_of_app; [by left|right].
  split_and!; [done| |done].
  intros ->. by destruct (any_two intersects pick).
Qed.

Lemma fold_expand_body_yielded (skip : bool) (picks : list (list Feature))
  (st : expanding) (t : Template) :
  t ∈ yielded (fold_left (expand_body int_of_str skip) picks st) →
  t ∈ yielded st ∨
  ∃ pick, pick ∈ picks ∧
    any_two issuperset pick = false ∧
    (skip = true → any_two intersects pick = false) ∧
    _features t = sorted Feature_lt pick.
Proof.
  revert st. induction picks as [|pick picks IH]; intros st; simpl; [by left|].
  intros [Ht|(pick' & Hin & Hpick')]%IH.
  - apply expand_body_yielded in Ht as [Ht|Ht]; [by left|right].
    exists pick. split; [left|done].
  - right. exists pick'. split; [by right|done].
Qed.

Lemma expand_yielded (featurelists : list (list Feature)) (combinations : combinations_arg)
  (skip : bool) (w : world) (t : Template) :
  t ∈ (expand int_of_str featurelists combinations skip w).1.1 →
  ∃ pick, pick ∈ (candidates featurelists combinations).1 ∧
    any_two issuperset pick = false ∧
    (skip = true → any_two intersects pick = false) ∧
    _features t = sorted Feature_lt pick.
Proof.
  unfold expand. destruct (candidates featurelists combinations) as [picks e]. simpl.
  intros [Ht|Ht]%fold_expand_body_yielded; [|done].
  simpl in Ht. by apply elem_of_nil in Ht.
Qed.

(** What is told apart: the Templates yielded by one run of the loop have
    pairwise different texts, hence pairwise different Feature sequences. *)
Lemma fold_expand_body_distinct (skip : bool) (picks : list (list Feature))
  (st : expanding) :
  seentemplates st = list_to_set (Template_repr <$> yielded st) →
  NoDup (Template_repr <$> yielded st) →
  NoDup (Template_repr <$> yielded (fold_left (expand_body int_of_str skip) picks st)).
Proof.
  revert st. induction picks as [|pick picks IH]; intros st Hseen Hnodup; simpl; [done|].
  apply IH; unfold expand_body; destruct (raised st); try done;
    destruct (any_two issuperset pick); try done;
    destruct (skip && any_two intersects pick); try done;
    rewrite Template_init_features; cbv beta iota zeta;
    case_bool_decide as Hin; simpl; try done.
  - rewrite fmap_app, list_to_set_app_L, <- Hseen. simpl.
    rewrite (right_id_L ∅ (∪)). apply (comm_L (∪)).
  - rewrite fmap_app. apply NoDup_app. split_and!; [done| |apply NoDup_singleton].
    intros s Hs ->%list_elem_of_singleton. apply Hin. rewrite Hseen.
    by apply elem_of_list_to_set.
Qed.

Lemma expand_yields_distinct_feature_sequences (featurelists : list (list Feature))
  (combinations : combinations_arg) (skip : bool) (w : world) :
  NoDup (_features <$> (expand int_of_str featurelists combinations skip w).1.1).
Proof.
  unfold expand. destruct (candidates featurelists combinations) as [picks e]. simpl.
  apply (NoDup_fmap_1 (λ fs, "Template(" +:+ join "," (Feature_repr <$> fs) +:+ ")")).
  rewrite <- list_fmap_compose.
  apply (fold_expand_body_distinct skip picks (mkExpanding ∅ [] None w)); simpl.
  - done.
  - constructor.
Qed.

(** C5.  In a Template that [expand] yields, whatever the feature lists,
    [combinations] and [skipintersecting], the Features at two different
    places are never a Feature and a same-subclass Feature whose positions
    it includes. *)
Theorem expand_yields_no_superset_pair (featurelists : list (list Feature))
  (combinations : combinations_arg) (skip : bool) (w : world) (t : Template)
  (i j : nat) (X Y : Feature) :
  t ∈ (expand int_of_str featurelists combinations skip w).1.1 →
  _features t !! i = Some X →
  _features t !! j = Some Y →
  i ≠ j →
  ¬ (cls X = cls Y ∧ positions Y ⊆ positions X).
Proof.
  intros (pick & _ & Hsup & _ & Hfeatures)%expand_yielded Hi Hj Hij HXY.
  apply issuperset_spec in HXY.
  pose proof (sorted_Permutation Feature_lt pick) as Hperm.
  apply Permutation_inj in Hperm as (_ & f & Hinj & Hf).
  rewrite Hfeatures, Hf in Hi, Hj.
  rewrite (any_two_true issuperset pick (f i) (f j) X Y) in Hsup; [done..| |done].
  intros Heq. by apply Hij, Hinj.
Qed.

(** C2.  The claim has no two yielded Templates with the same Features up
    to order.  Duplicates are recognised by the text of a Template whose
    Features went through [sorted], and [sorted] asks [Feature.__lt__],
    under which [Word([0])] and [Pos([1])] are each smaller than the other
    (see C3): the pick (Word([0]), Pos([1])) comes out as Pos, Word and the
    pick (Pos([1]), Word([0])) as Word, Pos.  With the feature lists
    [[Word([0])], [Pos([1])], [Word([0])]] both picks arise, and both
    Templates are yielded. *)
Theorem expand_yields_one_feature_set_twice :
  (expand int_of_str [[Word_0]; [Pos_1]; [Word_0]] CNone true empty_world).1.1 =
    [ mkTemplate "000" [Word_0];
      mkTemplate "001" [Pos_1];
      mkTemplate "002" [Pos_1; Word_0];
      mkTemplate "003" [Word_0; Pos_1] ] ∧
  sorted name_then_positions_lt [Pos_1; Word_0] =
    sorted name_then_positions_lt [Word_0; Pos_1].
Proof. split; vm_compute; reflexivity. Qed.
End Expand_facts.

(** ** Rule enumeration *)

Lemma elem_of_cartesian_product {A} (pools : list (list A)) (xs : list A) :
  xs ∈ cartesian_product pools ↔ Forall2 (∈) xs pools.
Proof.
  revert xs. induction pools as [|pool rest IH]; intros xs; simpl.
  - rewrite list_elem_of_singleton. split; [intros ->; constructor|by inversion 1].
  - rewrite list_elem_of_bind. split.
    + intros (x & (ys & -> & Hys)%list_elem_of_fmap & Hx). constructor; [done|by apply IH].
    + inversion 1 as [|x ? ys ? Hx Hys]; subst. exists x. split; [|done].
      apply list_elem_of_fmap. exists ys. split; [done|by apply IH].
Qed.

Lemma cartesian_product_empty_pool {A} (pools : list (list A)) :
  [] ∈ pools → cartesian_product pools = [].
Proof.
  induction pools as [|pool rest IH]; [by intros ?%elem_of_nil|].
  intros [<-|Hrest]%elem_of_cons; simpl; [done|].
  rewrite (IH Hrest). induction pool; csimpl; auto.
Qed.

Lemma it_product_cartesian_product {A} (pools : list (list A)) :
  it_product pools = cartesian_product pools.
Proof.
  unfold it_product.
  assert (∀ res : list (list A),
            fold_left (λ res pool, x ← res; (λ y, x ++ [y]) <$> pool) pools res =
            x ← res; (x ++.) <$> cartesian_product pools) as Hgen.
  { induction pools as [|pool rest IH]; intros res; simpl.
    - induction res as [|x res IHres]; csimpl; [done|]. by rewrite app_nil_r, <- IHres.
    - rewrite IH. induction res as [|x res IHres]; csimpl; [done|].
      rewrite bind_app, IHres. f_equal. clear.
      induction pool as [|y pool IHpool]; csimpl; [done|].
      rewrite fmap_app, IHpool. f_equal.
      rewrite <- list_fmap_compose. apply list_fmap_ext. intros _ ys _. simpl.
      by rewrite <- app_assoc. }
  rewrite Hgen. csimpl. rewrite app_nil_r.
  generalize (cartesian_product pools) as cp. clear.
  induction cp as [|xs xss IH]; csimpl; [done|]. by f_equal.
Qed.

Lemma append_to_last_snoc {A} (conds : list (list A)) (last : list A) (c : A) :
  append_to_last (conds ++ [last]) c = conds ++ [last ++ [c]].
Proof. unfold append_to_last. by rewrite reverse_snoc, reverse_involutive. Qed.

Section Rules_facts.
Context {value : Type} (extract_property : string → list token → Z → value).

Lemma _applicable_conditions_spec (self : Template) (tokens : list token) (index : Z) :
  _applicable_conditions extract_property self tokens index =
    condition_list extract_property tokens index <$> _features self.
Proof.
  unfold _applicable_conditions.
  assert (∀ feature (ps : list Z) conds last,
            fold_left
              (λ conds pos,
                 if negb ((0 <=? index + pos)%Z && (index + pos <? len tokens)%Z) then conds
                 else append_to_last conds
                        (feature, extract_property (cls feature) tokens (index + pos)%Z))
              ps (conds ++ [last]) =
            conds ++ [last ++ ((λ p, (feature,
                                      extract_property (cls feature) tokens (index + p)%Z))
                                 <$> filter (λ p, (0 ≤ index + p < len tokens)%Z) ps)])
    as Hinner.
  { intros feature ps. induction ps as [|p ps IH]; intros conds last; simpl.
    - by rewrite app_nil_r.
    - rewrite filter_cons. case_decide as Hp.
      + assert ((0 <=? index + p)%Z && (index + p <? len tokens)%Z = true) as ->.
        { apply andb_true_iff. split; [apply Z.leb_le|apply Z.ltb_lt]; lia. }
        simpl. rewrite append_to_last_snoc, IH. csimpl. by rewrite <- app_assoc.
      + assert ((0 <=? index + p)%Z && (index + p <? len tokens)%Z = false) as ->.
        { apply not_true_is_false. intros [?%Z.leb_le ?%Z.ltb_lt]%andb_true_iff. lia. }
        simpl. by rewrite IH. }
  assert (∀ fs conds,
            fold_left
              (λ conds feature,
                 fold_left
                   (λ conds pos,
                      if negb ((0 <=? index + pos)%Z && (index + pos <? len tokens)%Z)
                      then conds
                      else append_to_last conds
                             (feature,
                              extract_property (cls feature) tokens (index + pos)%Z))
                   (positions feature) (conds ++ [[]]))
              fs conds =
            conds ++ (condition_list extract_property tokens index <$> fs)) as Houter.
  { induction fs as [|f fs IH]; intros conds; simpl.
    - by rewrite app_nil_r.
    - rewrite Hinner, IH. csimpl. by rewrite <- app_assoc. }
  apply (Houter _ []).
Qed.

(** C1.  At a valid index whose token is [tok]: when [tok]'s tag is
    already [correct_tag] there is no rule; otherwise there is one Rule,
    carrying the Template's id, [tok]'s tag and [correct_tag], for each
    tuple of the Cartesian product, in Feature order, of the Features'
    condition lists, a condition list holding the in-bounds positions only;
    and when some Feature has no condition there is no rule at all. *)
Theorem applicable_rules_spec (self : Template) (tokens : list token) (index : Z)
  (correct_tag : string) (tok : token) :
  (0 ≤ index < len tokens)%Z →
  tokens !! Z.to_nat index = Some tok →
  applicable_rules extract_property self tokens index correct_tag =
    inr (if decide (tok.2 = correct_tag) then []
         else mkRule (id self) tok.2 correct_tag
                <$> cartesian_product (condition_list extract_property tokens index <$> _features self)) ∧
  ((∃ feature, feature ∈ _features self ∧ condition_list extract_property tokens index feature = []) →
   applicable_rules extract_property self tokens index correct_tag = inr []).
Proof.
  intros Hindex Htok.
  assert (applicable_rules extract_property self tokens index correct_tag =
            inr (if decide (tok.2 = correct_tag) then []
                 else mkRule (id self) tok.2 correct_tag
                        <$> cartesian_product
                              (condition_list extract_property tokens index <$> _features self))) as Hrules.
  { unfold applicable_rules, getitem.
    assert ((index <? 0)%Z = false) as -> by (apply Z.ltb_ge; lia).
    assert ((index <? 0)%Z = false) as -> by (apply Z.ltb_ge; lia).
    rewrite Htok. simpl.
    case_bool_decide; case_decide; try done.
    by rewrite it_product_cartesian_product, _applicable_conditions_spec. }
  split; [done|].
  intros (feature & Hin & Hempty). rewrite Hrules. case_decide; [done|].
  rewrite cartesian_product_empty_pool; [done|].
  apply list_elem_of_fmap. by exists feature.
Qed.
End Rules_facts.

(** ** Neighbourhoods *)

Lemma py_min_spec (x : Z) (xs : list Z) :
  py_min x xs ∈ x :: xs ∧ ∀ y, y ∈ x :: xs → (py_min x xs ≤ y)%Z.
Proof.
  unfold py_min. revert x. induction xs as [|z xs IH]; intros x; simpl.
  - split; [by left|]. intros y ->%list_elem_of_singleton. lia.
  - destruct (IH (Z.min x z)) as [Hin Hle]. split.
    + apply elem_of_cons in Hin as [->|Hin]; [|by do 2 right].
      destruct (Z.min_spec x z) as [[_ ->]|[_ ->]]; [left|right; left].
    + intros y Hy. pose proof (Hle (Z.min x z) ltac:(left)) as Hxz.
      apply elem_of_cons in Hy as [->|Hy]; [lia|].
      apply elem_of_cons in Hy as [->|Hy]; [lia|].
      apply Hle. by right.
Qed.

Lemma py_max_spec (x : Z) (xs : list Z) :
  py_max x xs ∈ x :: xs ∧ ∀ y, y ∈ x :: xs → (y ≤ py_max x xs)%Z.
Proof.
  unfold py_max. revert x. induction xs as [|z xs IH]; intros x; simpl.
  - split; [by left|]. intros y ->%list_elem_of_singleton. lia.
  - destruct (IH (Z.max x z)) as [Hin Hle]. split.
    + apply elem_of_cons in Hin as [->|Hin]; [|by do 2 right].
      destruct (Z.max_spec x z) as [[_ ->]|[_ ->]]; [right; left|left].
    + intros y Hy. pose proof (Hle (Z.max x z) ltac:(left)) as Hxz.
      apply elem_of_cons in Hy as [->|Hy]; [lia|].
      apply elem_of_cons in Hy as [->|Hy]; [lia|].
      apply Hle. by right.
Qed.

Lemma elem_of_fold_add (p : Z) (l : list Z) (nb : gset Z) :
  p ∈ fold_left (λ nb i, {[ i ]} ∪ nb) l nb ↔ p ∈ l ∨ p ∈ nb.
Proof.
  revert nb. induction l as [|i l IH]; intros nb; simpl.
  - split; [by right|]. by intros [?%elem_of_nil|?].
  - rewrite IH, elem_of_union, elem_of_singleton, elem_of_cons. tauto.
Qed.

Lemma elem_of_range (p a b : Z) : p ∈ range a b ↔ (a ≤ p < b)%Z.
Proof. unfold range. rewrite elem_of_seqZ. lia. Qed.

(** C4.  With [min_off] and [max_off] the least and the greatest of 0 and
    all positions of all Features, the neighbourhood of a valid [index] is
    [index] together with the positions [p] of the sequence such that
    [p + min_off <= index <= p + max_off]; for a Template of one Feature at
    position 0 it is [index] alone. *)
Theorem get_neighborhood_spec (self : Template) (tokens : list token) (index : Z)
  (min_off max_off : Z) :
  (0 ≤ index < len tokens)%Z →
  min_off ∈ all_offsets self → (∀ o, o ∈ all_offsets self → (min_off ≤ o)%Z) →
  max_off ∈ all_offsets self → (∀ o, o ∈ all_offsets self → (o ≤ max_off)%Z) →
  (∀ p : Z,
     p ∈ get_neighborhood self tokens index ↔
     p = index ∨
     ((0 ≤ p < len tokens)%Z ∧ (p + min_off ≤ index)%Z ∧ (index ≤ p + max_off)%Z)) ∧
  (∀ feature,
     _features self = [feature] → positions feature = [0%Z] →
     get_neighborhood self tokens index = {[ index ]}).
Proof.
  intros Hindex Hmin_in Hmin Hmax_in Hmax.
  pose proof (py_min_spec 0 (feat ← _features self; positions feat)) as [Hlo_in Hlo].
  pose proof (py_max_spec 0 (feat ← _features self; positions feat)) as [Hhi_in Hhi].
  fold (all_offsets self) in Hlo_in, Hlo, Hhi_in, Hhi.
  assert (py_min 0 (feat ← _features self; positions feat) = min_off) as Hlo_eq.
  { specialize (Hmin _ Hlo_in). specialize (Hlo _ Hmin_in). lia. }
  assert (py_max 0 (feat ← _features self; positions feat) = max_off) as Hhi_eq.
  { specialize (Hmax _ Hhi_in). specialize (Hhi _ Hmax_in). lia. }
  assert (∀ p : Z,
            p ∈ get_neighborhood self tokens index ↔
            p = index ∨
            ((0 ≤ p < len tokens)%Z ∧ (p + min_off ≤ index)%Z ∧ (index ≤ p + max_off)%Z))
    as Hmem.
  { intros p. unfold get_neighborhood. cbv zeta.
    rewrite elem_of_fold_add, elem_of_range, Hlo_eq, Hhi_eq, elem_of_singleton. lia. }
  split; [done|].
  intros feature Hfeatures Hpositions.
  assert (min_off = 0%Z ∧ max_off = 0%Z) as [-> ->].
  { unfold all_offsets in *. rewrite Hfeatures in *. csimpl in *.
    rewrite Hpositions in *. simpl in *.
    split; [apply elem_of_cons in Hmin_in|apply elem_of_cons in Hmax_in]; set_solver. }
  apply set_eq. intros p. rewrite Hmem, elem_of_singleton. lia.
Qed.

Lemma get_neighborhood_spec_witness :
  let self := mkTemplate "000" [mkFeature "Word" [0%Z]; mkFeature "Pos" [-2; 1]%Z] in
  let tokens := [("the", "DT"); ("old", "JJ"); ("man", "NN"); ("the", "DT");
                 ("boats", "NNS")] in
  (∀ p : Z,
     p ∈ get_neighborhood self tokens 3 ↔
     p = 3%Z ∨ ((0 ≤ p < len tokens)%Z ∧ (p + -2 ≤ 3)%Z ∧ (3 ≤ p + 1)%Z)) ∧
  (∀ feature,
     _features self = [feature] → positions feature = [0%Z] →
     get_neighborhood self tokens 3 = {[ 3%Z ]}).
Proof.
  apply get_neighborhood_spec.
  - vm_compute. split; [discriminate|reflexivity].
  - unfold all_offsets. csimpl. set_solver.
  - unfold all_offsets. csimpl. intros o Ho.
    repeat (apply elem_of_cons in Ho as [->|Ho]; [lia|]). by apply elem_of_nil in Ho.
  - unfold all_offsets. csimpl. set_solver.
  - unfold all_offsets. csimpl. intros o Ho.
    repeat (apply elem_of_cons in Ho as [->|Ho]; [lia|]). by apply elem_of_nil in Ho.
Defined.

(** ** [Feature.expand] *)

Lemma slice_window (starts : list Z) (i : nat) (w : Z) :
  (0 < w)%Z → i + Z.to_nat w ≤ length starts →
  slice starts (Z.of_nat i) (Z.of_nat i + w) = take (Z.to_nat w) (drop i starts).
Proof.
  intros Hw Hfit. unfold slice, slice_bound, len.
  assert ((Z.of_nat i <? 0)%Z = false) as -> by (apply Z.ltb_ge; lia).
  assert ((Z.of_nat i + w <? 0)%Z = false) as -> by (apply Z.ltb_ge; lia).
  f_equal; [|f_equal]; lia.
Qed.

Lemma range_window_starts (starts : list Z) (w : Z) :
  (0 < w)%Z →
  range 0 (len starts - w + 1) = Z.of_nat <$> seq 0 (S (length starts) - Z.to_nat w).
Proof.
  intros Hw. unfold range, seqZ, len.
  replace (Z.to_nat (Z.of_nat (length starts) - w + 1 - 0))
    with (S (length starts) - Z.to_nat w) by lia.
  apply list_fmap_ext. intros _ i _. lia.
Qed.

Lemma windows_by_slices (starts winlens : list Z) :
  Forall (λ w, (0 < w)%Z) winlens →
  (w ← winlens; (λ i, slice starts i (i + w)) <$> range 0 (len starts - w + 1)) =
    windows starts winlens.
Proof.
  unfold windows. induction 1 as [|w winlens Hw _ IH]; csimpl; [done|].
  rewrite IH. f_equal. rewrite range_window_starts by done.
  rewrite <- list_fmap_compose. apply list_fmap_ext.
  intros k i [_ Hi]%list_elem_of_lookup_2%elem_of_seq. simpl.
  apply slice_window; [done|lia].
Qed.

Lemma comprehension_cons {A B} (f : A → result B) (x : A) (xs : list A) :
  comprehension f (x :: xs) = y ← f x; ys ← comprehension f xs; mret (y :: ys).
Proof. reflexivity. Qed.

Section Feature_expand_facts.
Variable int_of_str : string → option Z.

Lemma comprehension_Feature_init_ints (name : string) (xs : list (list Z)) :
  ∃ fs,
    comprehension (λ x, Feature_init int_of_str name (PyList (PyInt <$> x)) PyNone) xs
      = inr fs ∧
    Forall2 (built_over name) xs fs.
Proof.
  induction xs as [|x xs (fs & Hfs & Hbuilt)].
  - by exists [].
  - rewrite comprehension_cons, Feature_init_ints, Hfs. simpl. eexists. split; [done|].
    constructor; [|done]. split; [done|]. apply sorted_set_spec.
Qed.

(** C6.  When every window length is positive, [Feature.expand] returns
    the Features over the windows of [starts], one per window and in the
    order of the windows, those windows left out that hold 0 when
    [excludezero] is set; on starts [0, 1, 2, 3] and window lengths [1, 2]
    these are seven Features, or five without the two whose positions hold
    0.  When some window length is not positive, the claim and the
    docstring have a validation error, [ValueError]; but the message of that
    error is built by formatting the list with the code [s], which raises
    [TypeError], and [TypeError] is what [Feature.expand] raises, on
    starts [0, 1, 2, 3] and window lengths [1, 0] as on every such input. *)
Theorem Feature_expand_spec (name : string) (starts winlens : list Z)
  (excludezero : bool) :
  (Forall (λ w, (0 < w)%Z) winlens →
   ∃ fs,
     Feature_expand int_of_str name starts winlens excludezero = inr fs ∧
     Forall2 (built_over name)
       (filter (λ x, ¬ (excludezero = true ∧ 0%Z ∈ x)) (windows starts winlens)) fs) ∧
  (¬ Forall (λ w, (0 < w)%Z) winlens →
   Feature_expand int_of_str name starts winlens excludezero = inl TypeError) ∧
  Feature_expand int_of_str name [0; 1; 2; 3]%Z [1; 0]%Z false = inl TypeError ∧
  Feature_expand int_of_str name [0; 1; 2; 3]%Z [1; 2]%Z false =
    inr (mkFeature name <$> [[0]; [1]; [2]; [3]; [0; 1]; [1; 2]; [2; 3]]%Z) ∧
  Feature_expand int_of_str name [0; 1; 2; 3]%Z [1; 2]%Z true =
    inr (mkFeature name <$> [[1]; [2]; [3]; [1; 2]; [2; 3]]%Z).
Proof.
  assert (forallb (λ x, (x >? 0)%Z) winlens = true ↔ Forall (λ w, (0 < w)%Z) winlens)
    as Hall.
  { rewrite forallb_forall, Forall_forall. setoid_rewrite <- list_elem_of_In.
    split; intros H w Hw; specialize (H w Hw); lia. }
  split_and!.
  - intros Hpos. unfold Feature_expand.
    rewrite (proj2 Hall Hpos). simpl. rewrite windows_by_slices by done.
    apply comprehension_Feature_init_ints.
  - intros Hneg. unfold Feature_expand.
    destruct (forallb (λ x, (x >? 0)%Z) winlens) eqn:Hb; [|done].
    destruct Hneg. by apply Hall.
  - reflexivity.
  - vm_compute. reflexivity.
  - vm_compute. reflexivity.
Qed.
End Feature_expand_facts.

(** ** Instances *)

Lemma applicable_rules_spec_witness :
  let self := mkTemplate "000" [mkFeature "Word" [0%Z]; mkFeature "Pos" [-1; 1]%Z] in
  applicable_rules word_or_tag self the_old_man 1 "JJ" =
    inr (if decide (("old", "NN").2 = "JJ") then []
         else mkRule (id self) ("old", "NN").2 "JJ"
                <$> cartesian_product
                      (condition_list word_or_tag the_old_man 1 <$> _features self)) ∧
  ((∃ feature,
      feature ∈ _features self ∧ condition_list word_or_tag the_old_man 1 feature = []) →
   applicable_rules word_or_tag self the_old_man 1 "JJ" = inr []).
Proof.
  apply (applicable_rules_spec word_or_tag
           (mkTemplate "000" [mkFeature "Word" [0%Z]; mkFeature "Pos" [-1; 1]%Z])
           the_old_man 1 "JJ" ("old", "NN")).
  - vm_compute. split; [discriminate|reflexivity].
  - reflexivity.
Defined.

Lemma expand_yields_no_superset_pair_witness :
  mkTemplate "002" [Word_0; Word_1]
    ∈ (expand int_of_decimal [[Word_0]; [Word_1]] CNone true empty_world).1.1 ∧
  ¬ (cls Word_0 = cls Word_1 ∧ positions Word_1 ⊆ positions Word_0).
Proof.
  assert (mkTemplate "002" [Word_0; Word_1]
            ∈ (expand int_of_decimal [[Word_0]; [Word_1]] CNone true empty_world).1.1)
    as Hyielded.
  { vm_compute. do 2 apply list_elem_of_further. apply list_elem_of_here. }
  split; [exact Hyielded|].
  apply (expand_yields_no_superset_pair int_of_decimal [[Word_0]; [Word_1]] CNone true
           empty_world (mkTemplate "002" [Word_0; Word_1]) 0 1 Word_0 Word_1 Hyielded).
  - reflexivity.
  - reflexivity.
  - lia.
Defined.

(** C7, as the claim words it.  [expand] over the lists [[Word([0])],
    [Word([0])], [Word([1])]] builds Template(Word([0])) a second time, with
    id "001", undoes it as a duplicate, and builds Template(Word([1])) next,
    again with id "001": two constructed Templates received one id, with no
    removal but the undo-last of [expand]. *)
Lemma expand_gives_one_id_to_two_Templates :
  Forall (λ o, calls_poptemplate o = false) expand_with_repeat ∧
  created (run int_of_decimal expand_with_repeat) !! 1 = Some (mkTemplate "001" [Word_0]) ∧
  created (run int_of_decimal expand_with_repeat) !! 2 = Some (mkTemplate "001" [Word_1]).
Proof. split; [repeat constructor|]. split; vm_compute; reflexivity. Qed.

Lemma ids_never_decrease_witness :
  Forall (λ o, calls_poptemplate o = false) expand_with_repeat ∧
  (∀ features w self w',
     Template_init int_of_decimal features w = (inr self, w') →
     id self = format_03d (length (ALLTEMPLATES w)) ∧
     ALLTEMPLATES w' = ALLTEMPLATES w ++ [self]) ∧
  (∃ ns : list nat,
     id <$> created (run int_of_decimal expand_with_repeat) = format_03d <$> ns ∧
     StronglySorted le ns) ∧
  sublist (ALLTEMPLATES (run int_of_decimal expand_with_repeat))
    (created (run int_of_decimal expand_with_repeat)) ∧
  NoDup (id <$> ALLTEMPLATES (run int_of_decimal expand_with_repeat)).
Proof.
  assert (Forall (λ o, calls_poptemplate o = false) expand_with_repeat) as Hops.
  { repeat constructor. }
  split; [exact Hops|].
  exact (ids_never_decrease int_of_decimal expand_with_repeat Hops).
Defined.

Lemma registry_ids_by_index_witness :
  let ops := expand_with_repeat ++
               [OpPoptemplate;
                OpTemplate [PyClass "Pos" true; PyTuple [PyInt (-1); PyInt 1]]] in
  let t := mkTemplate "002" [mkFeature "Pos" [-1; 0; 1]%Z] in
  ALLTEMPLATES (run int_of_decimal ops) !! 2 = Some t ∧
  id t = format_03d 2 ∧
  ∀ (k' : nat) (t' : Template),
    ALLTEMPLATES (run int_of_decimal ops) !! k' = Some t' → k' ≠ 2 → id t' ≠ id t.
Proof.
  cbv zeta.
  assert (ALLTEMPLATES
            (run int_of_decimal
               (expand_with_repeat ++
                  [OpPoptemplate;
                   OpTemplate [PyClass "Pos" true; PyTuple [PyInt (-1); PyInt 1]]])) !! 2 =
          Some (mkTemplate "002" [mkFeature "Pos" [-1; 0; 1]%Z])) as Hlookup.
  { vm_compute. reflexivity. }
  split; [exact Hlookup|].
  exact (registry_ids_by_index int_of_decimal _ 2 _ Hlookup).
Defined.

Lemma Feature_init_positions_sorted_witness :
  Feature_init int_of_decimal "Word" (PyList [PyInt 3; PyInt (-1); PyInt 3]) PyNone =
    inr (mkFeature "Word" [-1; 3]%Z) ∧
  cls (mkFeature "Word" [-1; 3]%Z) = "Word" ∧
  StronglySorted Z.lt (positions (mkFeature "Word" [-1; 3]%Z)).
Proof.
  assert (Feature_init int_of_decimal "Word" (PyList [PyInt 3; PyInt (-1); PyInt 3]) PyNone =
            inr (mkFeature "Word" [-1; 3]%Z)) as Hinit.
  { vm_compute. reflexivity. }
  split; [exact Hinit|].
  exact (Feature_init_positions_sorted int_of_decimal _ _ _ _ Hinit).
Defined.

Lemma Feature_expand_spec_witness :
  Forall (λ w, (0 < w)%Z) [1; 2]%Z ∧
  ∃ fs,
    Feature_expand int_of_decimal "Word" [-1; 0; 1]%Z [1; 2]%Z true = inr fs ∧
    Forall2 (built_over "Word")
      (filter (λ x, ¬ (true = true ∧ 0%Z ∈ x)) (windows [-1; 0; 1]%Z [1; 2]%Z)) fs.
Proof.
  assert (Forall (λ w, (0 < w)%Z) [1; 2]%Z) as Hpositive.
  { repeat constructor; lia. }
  split; [exact Hpositive|].
  exact (proj1 (Feature_expand_spec int_of_decimal "Word" [-1; 0; 1]%Z [1; 2]%Z true)
           Hpositive).
Defined.

(** * Further properties *)

(** ** The comparisons of Features, continued *)

Lemma tuple_lt_irrefl (a : list Z) : tuple_lt a a = false.
Proof. induction a as [|x a IH]; simpl; [done|]. by rewrite Z.eqb_refl. Qed.

Lemma tuple_lt_trans (a b c : list Z) :
  tuple_lt a b = true → tuple_lt b c = true → tuple_lt a c = true.
Proof.
  revert b c. induction a as [|x a IH]; intros [|y b] [|z c]; simpl; try done.
  destruct (Z.eqb_spec x y), (Z.eqb_spec y z), (Z.eqb_spec x z); subst;
    try done; eauto; rewrite ?Z.ltb_lt; lia.
Qed.

Lemma tuple_lt_total (a b : list Z) :
  a ≠ b → tuple_lt a b = true ∨ tuple_lt b a = true.
Proof.
  revert b. induction a as [|x a IH]; intros [|y b] Hne; simpl; try done; auto.
  rewrite (Z.eqb_sym y x). destruct (Z.eqb_spec x y) as [->|Hxy].
  - apply IH. congruence.
  - destruct (Z.ltb_spec x y), (Z.ltb_spec y x); auto; lia.
Qed.

Lemma String_ltb_irrefl (s : string) : String.ltb s s = false.
Proof.
  unfold String.ltb. pose proof (String.compare_antisym s s) as H.
  by destruct (String.compare s s).
Qed.


(** [tuple_lt] is the lexicographic order: it holds exactly when the first
    tuple is a proper prefix of the second or holds the smaller int at the
    first place where the two differ. *)
Lemma tuple_lt_lexicographic (a b : list Z) :
  tuple_lt a b = true ↔ lexicographic_lt a b.
Proof.
  revert b. induction a as [|x a IH]; intros [|y b]; simpl.
  - split; [done|]. intros [(y & rest & H)|(common & x & y & ra & rb & H & _)].
    + done.
    + by destruct common.
  - split; [|done]. intros _. left. by exists y, b.
  - split; [done|]. intros [(y & rest & H)|(common & x' & y & ra & rb & _ & H & _)].
    + done.
    + by destruct common.
  - destruct (Z.eqb_spec x y) as [->|Hxy].
    + rewrite IH. split.
      * intros [(z & rest & ->)|(common & x' & y' & ra & rb & -> & -> & Hlt)].
        -- left. by exists z, rest.
        -- right. by exists (y :: common), x', y', ra, rb.
      * intros [(z & rest & Hb)|(common & x' & y' & ra & rb & Ha & Hb & Hlt)].
        -- left. exists z, rest. by simplify_eq/=.
        -- destruct common as [|c common]; simplify_eq/=; [lia|].
           right. by exists common, x', y', ra, rb.
    + rewrite Z.ltb_lt. split.
      * intros Hlt. right. by exists [], x, y, a, b.
      * intros [(z & rest & Hb)|(common & x' & y' & ra & rb & Ha & Hb & Hlt)].
        -- by simplify_eq/=.
        -- by destruct common as [|c common]; simplify_eq/=.
Qed.

(** On two Features of one subclass [__lt__] compares the positions
    lexicographically: it holds exactly when the positions of the first are
    a proper prefix of those of the second, or are the smaller at the first
    place where the two differ. *)
Theorem Feature_lt_same_class (a b : Feature) :
  cls a = cls b →
  (Feature_lt a b = true ↔ lexicographic_lt (positions a) (positions b)).
Proof.
  intros Hcls. unfold Feature_lt. rewrite Hcls, String_ltb_irrefl. simpl.
  apply tuple_lt_lexicographic.
Qed.

Lemma Feature_lt_same_class_witness :
  cls Word_0 = cls (mkFeature "Word" [0; 1]%Z) ∧
  (Feature_lt Word_0 (mkFeature "Word" [0; 1]%Z) = true ↔
   lexicographic_lt (positions Word_0) (positions (mkFeature "Word" [0; 1]%Z))).
Proof.
  assert (cls Word_0 = cls (mkFeature "Word" [0; 1]%Z)) as Hcls by reflexivity.
  split; [exact Hcls|].
  exact (Feature_lt_same_class Word_0 (mkFeature "Word" [0; 1]%Z) Hcls).
Defined.



(** Within one subclass [<] is a strict order: it is transitive and never
    holds both ways. *)
Theorem Feature_lt_strict_within_class (a b c : Feature) :
  cls a = cls b → cls b = cls c →
  (Feature_lt a b = true → Feature_lt b c = true → Feature_lt a c = true) ∧
  (Feature_lt a b = true → Feature_lt b a = false).
Proof.
  intros Hab Hbc. unfold Feature_lt. rewrite <- Hbc, <- Hab, String_ltb_irrefl. simpl.
  split; [apply tuple_lt_trans|].
  intros Hlt. destruct (tuple_lt (positions b) (positions a)) eqn:Hgt; [|done].
  by rewrite <- (tuple_lt_irrefl (positions a)), (tuple_lt_trans _ _ _ Hlt Hgt).
Qed.

Lemma Feature_lt_strict_within_class_witness :
  cls Word_0 = cls Word_1 ∧ cls Word_1 = cls Word_0 ∧
  (Feature_lt Word_0 Word_1 = true → Feature_lt Word_1 Word_0 = true →
   Feature_lt Word_0 Word_0 = true) ∧
  (Feature_lt Word_0 Word_1 = true → Feature_lt Word_1 Word_0 = false).
Proof.
  assert (cls Word_0 = cls Word_1) as H01 by reflexivity.
  assert (cls Word_1 = cls Word_0) as H10 by reflexivity.
  split; [exact H01|]. split; [exact H10|].
  exact (Feature_lt_strict_within_class Word_0 Word_1 Word_0 H01 H10).
Defined.

(** ** [issuperset] and [intersects] *)

Lemma intersects_spec (X Y : Feature) :
  intersects X Y = true ↔ cls X = cls Y ∧ ∃ p, p ∈ positions X ∧ p ∈ positions Y.
Proof.
  unfold intersects, positions_set.
  rewrite andb_true_iff, !bool_decide_eq_true.
  split; intros [Hcls Hmeet]; (split; [done|]).
  - apply set_choose_L in Hmeet as [p Hp]. exists p.
    apply elem_of_intersection in Hp as [HX HY].
    by rewrite !elem_of_list_to_set in HX, HY.
  - destruct Hmeet as (p & HX & HY). intros Hempty.
    apply (not_elem_of_empty (C := gset Z) p). rewrite <- Hempty.
    apply elem_of_intersection. by rewrite !elem_of_list_to_set.
Qed.

(** [issuperset] is reflexive and transitive, [intersects] is symmetric,
    and a superset of a Feature that has a position intersects it: the
    disjointness filter of [expand] rejects what the superset filter rejects,
    Features without positions apart. *)
Theorem issuperset_intersects_laws (X Y W : Feature) :
  issuperset X X = true ∧
  (issuperset X Y = true → issuperset Y W = true → issuperset X W = true) ∧
  intersects X Y = intersects Y X ∧
  (issuperset X Y = true → positions Y ≠ [] → intersects X Y = true).
Proof.
  split_and!.
  - by apply issuperset_spec.
  - intros [HXY HsubXY]%issuperset_spec [HYW HsubYW]%issuperset_spec.
    apply issuperset_spec. split; [congruence|]. intros p Hp. by apply HsubXY, HsubYW.
  - apply eq_true_iff_eq. rewrite !intersects_spec.
    split; intros (Hcls & p & H1 & H2); (split; [done|]); by exists p.
  - intros [HXY Hsub]%issuperset_spec Hne. apply intersects_spec. split; [done|].
    destruct (positions Y) as [|p ps] eqn:HY; [done|].
    exists p. split; [apply Hsub|]; left.
Qed.

(** ** [Template.expand], continued *)

Lemma elem_of_combinations_nat {A} (xs picks : list A) (r : nat) :
  picks ∈ combinations_nat xs r ↔ sublist picks xs ∧ length picks = r.
Proof.
  revert picks r. induction xs as [|x xs IH]; intros picks [|r]; simpl.
  - rewrite list_elem_of_singleton. split; [by intros ->|].
    intros [_ Hlen]. by destruct picks.
  - split; [by intros ?%elem_of_nil|]. intros [->%sublist_nil_r Hlen]. done.
  - rewrite list_elem_of_singleton. split.
    + intros ->. split; [apply sublist_nil_l|done].
    + intros [_ Hlen]. by destruct picks.
  - rewrite elem_of_app, list_elem_of_fmap, sublist_cons_r. setoid_rewrite IH. split.
    + intros [(rest & -> & Hsub & <-)|[Hsub Hlen]].
      * split; [right; by exists rest|done].
      * split; [by left|done].
    + intros [[Hsub|(rest & -> & Hsub)] Hlen].
      * right. done.
      * left. exists rest. simpl in Hlen. split; [done|]. split; [done|lia].
Qed.

Lemma chain_from_iterable_returns {A B} (gen : A → result (list B)) (xs : list A) :
  (∀ x, x ∈ xs → ∃ ys, gen x = inr ys) →
  (chain_from_iterable gen xs).2 = None ∧
  ∀ y, y ∈ (chain_from_iterable gen xs).1 ↔ ∃ x ys, x ∈ xs ∧ gen x = inr ys ∧ y ∈ ys.
Proof.
  induction xs as [|x xs IH]; intros Hgen; simpl.
  - split; [done|]. intros y. split; [by intros ?%elem_of_nil|].
    by intros (x & ys & ?%elem_of_nil & _).
  - destruct (Hgen x) as [ys Hys]; [left|]. rewrite Hys.
    destruct IH as [Hnone Hmem]; [intros x' Hx'; apply Hgen; by right|].
    destruct (chain_from_iterable gen xs) as [rest e]. simpl in *. split; [done|].
    intros y. rewrite elem_of_app, Hmem. split.
    + intros [Hy|(x' & ys' & Hx' & Hgen' & Hy)].
      * exists x, ys. split; [left|done].
      * exists x', ys'. split; [by right|done].
    + intros (x' & ys' & [->|Hx']%elem_of_cons & Hgen' & Hy).
      * left. congruence.
      * right. by exists x', ys'.
Qed.

(** What the two nested loops go through: when the first size asked of
    [itertools.combinations] is negative it raises at once; otherwise every
    pick is delivered. *)
Lemma candidates_raise (featurelists : list (list Feature)) (combinations : combinations_arg) :
  ((combrange featurelists combinations).1 < 0)%Z →
  ((combrange featurelists combinations).1 < (combrange featurelists combinations).2)%Z →
  candidates featurelists combinations = ([], Some ValueError).
Proof.
  unfold candidates, nonempty_powerset.
  destruct (combrange featurelists combinations) as [lo hi]. simpl. intros Hneg Hlt.
  unfold range. rewrite seqZ_cons by lia. simpl. unfold it_combinations.
  by rewrite (proj2 (Z.ltb_lt lo 0)) by done.
Qed.

Lemma candidates_return (featurelists : list (list Feature)) (combinations : combinations_arg) :
  ¬ ((combrange featurelists combinations).1 < 0 ∧
     (combrange featurelists combinations).1 < (combrange featurelists combinations).2)%Z →
  (candidates featurelists combinations).2 = None ∧
  ∀ pick,
    pick ∈ (candidates featurelists combinations).1 ↔
    picked_from featurelists (combrange featurelists combinations).1
      (combrange featurelists combinations).2 pick.
Proof.
  unfold candidates, nonempty_powerset, picked_from.
  destruct (combrange featurelists combinations) as [lo hi]. simpl. intros Hok.
  destruct (chain_from_iterable_returns (it_combinations featurelists) (range lo hi))
    as [Hnone Hmem].
  { intros r Hr%elem_of_range. unfold it_combinations.
    rewrite (proj2 (Z.ltb_ge r 0)) by lia. by eexists. }
  destruct (chain_from_iterable (it_combinations featurelists) (range lo hi)) as [pickss e].
  simpl in *. split; [done|].
  intros pick. rewrite list_elem_of_bind. setoid_rewrite Hmem. split.
  - intros (picks & Hpick & r & pickss' & Hr%elem_of_range & Hgen & Hpicks).
    unfold it_combinations in Hgen. rewrite (proj2 (Z.ltb_ge r 0)) in Hgen by lia.
    injection Hgen as <-. apply elem_of_combinations_nat in Hpicks as [Hsub Hlen].
    exists picks. split; [done|]. split; [unfold len; lia|].
    rewrite it_product_cartesian_product in Hpick. by apply elem_of_cartesian_product.
  - intros (picks & Hsub & Hlen & Hpick). exists picks. split.
    { rewrite it_product_cartesian_product. by apply elem_of_cartesian_product. }
    exists (len picks), (combinations_nat featurelists (length picks)). split_and!.
    + by apply elem_of_range.
    + unfold it_combinations, len. rewrite (proj2 (Z.ltb_ge _ 0)) by lia.
      by rewrite Nat2Z.id.
    + by apply elem_of_combinations_nat.
Qed.


Section Expand_more_facts.
Variable int_of_str : string → option Z.

(** One pass of the loop body, by cases: the pick is filtered out, or its
    Template is built and undone because its text was seen, or it is built,
    remembered and yielded. *)
Lemma expand_body_cases (skip : bool) (st : expanding) (pick : list Feature) :
  raised st = None →
  let self :=
    mkTemplate (format_03d (length (ALLTEMPLATES (now st)))) (sorted Feature_lt pick) in
  (passes_filters skip pick = false ∧ expand_body int_of_str skip st pick = st) ∨
  (passes_filters skip pick = true ∧ Template_repr self ∈ seentemplates st ∧
   expand_body int_of_str skip st pick =
     mkExpanding (seentemplates st) (yielded st) None
       (mkWorld (ALLTEMPLATES (now st)) (created (now st) ++ [self]))) ∨
  (passes_filters skip pick = true ∧ (Template_repr self ∉ seentemplates st) ∧
   expand_body int_of_str skip st pick =
     mkExpanding ({[ Template_repr self ]} ∪ seentemplates st) (yielded st ++ [self]) None
       (mkWorld (ALLTEMPLATES (now st) ++ [self]) (created (now st) ++ [self]))).
Proof.
  intros Hraised. cbv zeta. unfold expand_body, passes_filters. rewrite Hraised.
  destruct (any_two issuperset pick); [by left|].
  destruct (skip && any_two intersects pick); [by left|].
  right. rewrite Template_init_features. cbv beta iota zeta.
  case_bool_decide as Hseen; simpl.
  - left. by rewrite poptemplate_snoc.
  - by right.
Qed.

(** What a run of the loop keeps true. *)
Lemma fold_expand_body_invariant (skip : bool) (picks : list (list Feature))
  (st : expanding) (old : list Template) :
  raised st = None →
  seentemplates st = list_to_set (Template_repr <$> yielded st) →
  ALLTEMPLATES (now st) = old ++ yielded st →
  (∀ i t, yielded st !! i = Some t → id t = format_03d (length old + i)) →
  let st' := fold_left (expand_body int_of_str skip) picks st in
  raised st' = None ∧
  seentemplates st' = list_to_set (Template_repr <$> yielded st') ∧
  ALLTEMPLATES (now st') = old ++ yielded st' ∧
  (∀ i t, yielded st' !! i = Some t → id t = format_03d (length old + i)) ∧
  seentemplates st ⊆ seentemplates st' ∧
  (∀ pick i, pick ∈ picks → passes_filters skip pick = true →
     Template_repr (mkTemplate i (sorted Feature_lt pick)) ∈ seentemplates st').
Proof.
  revert st. induction picks as [|pick picks IH]; intros st Hraised Hseen Hreg Hids; simpl.
  { split_and!; try done. by intros pick i ?%elem_of_nil. }
  destruct (expand_body_cases skip st pick Hraised)
    as [[Hno Hst]|[(Hyes & Hin & Hst)|(Hyes & Hnotin & Hst)]].
  - rewrite Hst. destruct (IH st) as (? & ? & ? & ? & ? & Hpicks); try done.
    split_and!; try done.
    intros pick' i [->|Hin]%elem_of_cons Hpass; [congruence|by apply Hpicks].
  - rewrite Hst.
    destruct (IH (mkExpanding (seentemplates st) (yielded st) None
                    (mkWorld (ALLTEMPLATES (now st)) (created (now st) ++
                       [mkTemplate (format_03d (length (ALLTEMPLATES (now st))))
                          (sorted Feature_lt pick)]))))
      as (? & ? & ? & ? & Hsub & Hpicks); try done.
    split_and!; try done.
    intros pick' i [->|Hin']%elem_of_cons Hpass; [|by apply Hpicks].
    apply Hsub. exact Hin.
  - rewrite Hst.
    destruct (IH (mkExpanding
                    ({[ Template_repr
                          (mkTemplate (format_03d (length (ALLTEMPLATES (now st))))
                             (sorted Feature_lt pick)) ]} ∪ seentemplates st)
                    (yielded st ++
                       [mkTemplate (format_03d (length (ALLTEMPLATES (now st))))
                          (sorted Feature_lt pick)]) None
                    (mkWorld (ALLTEMPLATES (now st) ++
                                [mkTemplate (format_03d (length (ALLTEMPLATES (now st))))
                                   (sorted Feature_lt pick)])
                       (created (now st) ++
                          [mkTemplate (format_03d (length (ALLTEMPLATES (now st))))
                             (sorted Feature_lt pick)]))))
      as (? & ? & ? & ? & Hsub & Hpicks); simpl; try done.
    + rewrite fmap_app, list_to_set_app_L, <- Hseen. simpl.
      rewrite (right_id_L ∅ (∪)). apply (comm_L (∪)).
    + by rewrite Hreg, <- app_assoc.
    + intros i t Hi. apply lookup_app_Some in Hi as [Hi|[Hlen Hi]]; [by apply Hids|].
      apply list_lookup_singleton_Some in Hi as [Hi <-]. simpl.
      rewrite Hreg, length_app. f_equal. lia.
    + split_and!; try done.
      * etrans; [|exact Hsub]. apply union_subseteq_r.
      * intros pick' i [->|Hin']%elem_of_cons Hpass; [|by apply Hpicks].
        apply Hsub. apply elem_of_union_l. by apply elem_of_singleton.
Qed.
End Expand_more_facts.


Lemma size_allowed_combrange (featurelists picks : list (list Feature))
  (combinations : combinations_arg) :
  sublist picks featurelists →
  size_allowed featurelists combinations (length picks) ↔
  ((combrange featurelists combinations).1 ≤ len picks
   < (combrange featurelists combinations).2)%Z.
Proof.
  intros Hsub%sublist_length. destruct combinations; simpl; unfold len; lia.
Qed.

Section Expand_guarantees.
Variable int_of_str : string → option Z.

Lemma expand_invariant (featurelists : list (list Feature)) (combinations : combinations_arg)
  (skip : bool) (w : world) :
  let st := expand_loop int_of_str skip (candidates featurelists combinations).1 w in
  raised st = None ∧
  seentemplates st = list_to_set (Template_repr <$> yielded st) ∧
  ALLTEMPLATES (now st) = ALLTEMPLATES w ++ yielded st ∧
  (∀ i t, yielded st !! i = Some t → id t = format_03d (length (ALLTEMPLATES w) + i)) ∧
  (∀ pick i, pick ∈ (candidates featurelists combinations).1 →
     passes_filters skip pick = true →
     Template_repr (mkTemplate i (sorted Feature_lt pick)) ∈ seentemplates st).
Proof.
  destruct (fold_expand_body_invariant int_of_str skip
              (candidates featurelists combinations).1
              (mkExpanding ∅ [] None w) (ALLTEMPLATES w))
    as (? & ? & ? & ? & _ & ?); simpl; try done.
  by rewrite app_nil_r.
Qed.

Lemma expand_unfold (featurelists : list (list Feature)) (combinations : combinations_arg)
  (skip : bool) (w : world) :
  expand int_of_str featurelists combinations skip w =
    let st := expand_loop int_of_str skip (candidates featurelists combinations).1 w in
    (yielded st, from_option Some (candidates featurelists combinations).2 (raised st),
     now st).
Proof. unfold expand. by destruct (candidates featurelists combinations). Qed.

Lemma expand_on_negative_size (featurelists : list (list Feature))
  (combinations : combinations_arg) (skip : bool) (w : world) :
  ((combrange featurelists combinations).1 < 0)%Z →
  ((combrange featurelists combinations).1 < (combrange featurelists combinations).2)%Z →
  expand int_of_str featurelists combinations skip w = ([], Some ValueError, w).
Proof. intros Hneg Hlt. rewrite expand_unfold, candidates_raise by done. reflexivity. Qed.

(** After [expand] the registry is the registry before followed by the
    yielded Templates, in the order they were yielded: a duplicate that was
    built and undone leaves nothing behind, and the ids of the yielded
    Templates count on from the length the registry had. *)
Theorem expand_registers_what_it_yields (featurelists : list (list Feature))
  (combinations : combinations_arg) (skip : bool) (w : world) :
  ALLTEMPLATES (expand int_of_str featurelists combinations skip w).2 =
    ALLTEMPLATES w ++ (expand int_of_str featurelists combinations skip w).1.1 ∧
  ∀ (i : nat) (t : Template),
    (expand int_of_str featurelists combinations skip w).1.1 !! i = Some t →
    id t = format_03d (length (ALLTEMPLATES w) + i).
Proof.
  rewrite expand_unfold. cbv zeta. simpl.
  destruct (expand_invariant featurelists combinations skip w) as (_ & _ & ? & ? & _).
  done.
Qed.


Lemma expand_yielded_picked (featurelists : list (list Feature))
  (combinations : combinations_arg) (skip : bool) (w : world) (t : Template) :
  t ∈ (expand int_of_str featurelists combinations skip w).1.1 →
  ∃ pick picks,
    sublist picks featurelists ∧
    size_allowed featurelists combinations (length picks) ∧
    Forall2 (∈) pick picks ∧
    passes_filters skip pick = true ∧
    _features t = sorted Feature_lt pick.
Proof.
  intros Ht. pose proof Ht as (pick & Hpick & Hsup & Hint & Hfeatures)%expand_yielded.
  destruct (decide (((combrange featurelists combinations).1 < 0 ∧
                     (combrange featurelists combinations).1
                     < (combrange featurelists combinations).2)%Z)) as [[Hneg Hlt]|Hok].
  { rewrite expand_on_negative_size in Ht by done. by apply elem_of_nil in Ht. }
  destruct (candidates_return featurelists combinations Hok) as [_ Hmem].
  apply Hmem in Hpick as (picks & Hsub & Hsize & Hin).
  exists pick, picks. split_and!; try done.
  - by apply size_allowed_combrange.
  - unfold passes_filters. rewrite Hsup. destruct skip; [|done]. by rewrite Hint.
Qed.
End Expand_guarantees.

Section Expand_guarantees_more.
Variable int_of_str : string → option Z.

(** A yielded Template has as many Features as [combinations] allows, one
    out of each list of a selection of the feature lists, rearranged by
    [sorted]. *)
Theorem expand_yields_selections (featurelists : list (list Feature))
  (combinations : combinations_arg) (skip : bool) (w : world) (t : Template) :
  t ∈ (expand int_of_str featurelists combinations skip w).1.1 →
  size_allowed featurelists combinations (length (_features t)) ∧
  ∃ pick picks,
    sublist picks featurelists ∧ Forall2 (∈) pick picks ∧ _features t ≡ₚ pick.
Proof.
  intros (pick & picks & Hsub & Hsize & Hin & _ & Hfeatures)%expand_yielded_picked.
  assert (_features t ≡ₚ pick) as Hperm by (rewrite Hfeatures; apply sorted_Permutation).
  split; [|by exists pick, picks].
  by rewrite Hperm, (Forall2_length _ _ _ Hin).
Qed.

(** With [skipintersecting] the Features at two different places of a
    yielded Template never share a position when they are of one
    subclass. *)
Theorem expand_skipintersecting_yields_disjoint (featurelists : list (list Feature))
  (combinations : combinations_arg) (w : world) (t : Template) (i j : nat)
  (X Y : Feature) :
  t ∈ (expand int_of_str featurelists combinations true w).1.1 →
  _features t !! i = Some X →
  _features t !! j = Some Y →
  i ≠ j →
  ¬ (cls X = cls Y ∧ ∃ p, p ∈ positions X ∧ p ∈ positions Y).
Proof.
  intros (pick & _ & _ & Hint & Hfeatures)%expand_yielded Hi Hj Hij HXY.
  apply intersects_spec in HXY. specialize (Hint eq_refl).
  pose proof (sorted_Permutation Feature_lt pick) as Hperm.
  apply Permutation_inj in Hperm as (_ & f & Hinj & Hf).
  rewrite Hfeatures, Hf in Hi, Hj.
  rewrite (any_two_true intersects pick (f i) (f j) X Y) in Hint; [done..| |done].
  intros Heq. by apply Hij, Hinj.
Qed.

End Expand_guarantees_more.

(** ** Rule enumeration, continued *)

Lemma length_cartesian_product {A} (pools : list (list A)) :
  length (cartesian_product pools) = foldr (λ pool n, length pool * n) 1 pools.
Proof.
  induction pools as [|pool rest IH]; simpl; [done|]. rewrite <- IH.
  generalize (cartesian_product rest) as tuples. intros tuples.
  induction pool as [|x pool IHpool]; csimpl; [done|].
  by rewrite length_app, length_fmap, IHpool.
Qed.

Lemma getitem_spec {A} (xs : list A) (i : Z) :
  getitem xs i =
    if decide (- len xs ≤ i < len xs)%Z then
      match xs !! Z.to_nat (if decide (i < 0)%Z then i + len xs else i)%Z with
      | Some x => inr x
      | None => inl IndexError
      end
    else inl IndexError.
Proof.
  unfold getitem, len. destruct (Z.ltb_spec i 0) as [Hneg|Hpos].
  - rewrite (decide_True (P := (i < 0)%Z)) by done.
    destruct (Z.ltb_spec (i + Z.of_nat (length xs)) 0).
    + by rewrite decide_False by lia.
    + by rewrite decide_True by lia.
  - rewrite (decide_False (P := (i < 0)%Z)) by lia.
    destruct (Z.ltb_spec i 0); [lia|]. case_decide; [done|].
    by rewrite lookup_ge_None_2 by lia.
Qed.

Lemma getitem_valid {A} (xs : list A) (i : Z) (x : A) :
  (0 ≤ i)%Z → xs !! Z.to_nat i = Some x → getitem xs i = inr x.
Proof.
  intros Hi Hx. rewrite getitem_spec. pose proof (lookup_lt_Some _ _ _ Hx) as Hlt.
  rewrite decide_True by (unfold len; lia). rewrite decide_False by lia. by rewrite Hx.
Qed.

Section Rules_more_facts.
Context {value : Type} (extract_property : string → list token → Z → value).

Lemma applicable_rules_unfold (self : Template) (tokens : list token) (index : Z)
  (correct_tag : string) :
  applicable_rules extract_property self tokens index correct_tag =
    tok ← getitem tokens index;
    if decide (tok.2 = correct_tag) then mret []
    else mret (mkRule (id self) tok.2 correct_tag
                 <$> cartesian_product
                       (condition_list extract_property tokens index <$> _features self)).
Proof.
  unfold applicable_rules. destruct (getitem tokens index) as [e|tok]; simpl; [done|].
  case_bool_decide; case_decide; try done.
  by rewrite it_product_cartesian_product, _applicable_conditions_spec.
Qed.

(** Over an [extract_property] that returns, [applicable_rules] raises
    exactly when [tokens[index]] does. *)
Lemma applicable_rules_raises (self : Template) (tokens : list token)
  (index : Z) (correct_tag : string) :
  (∀ e, applicable_rules extract_property self tokens index correct_tag = inl e →
        e = IndexError) ∧
  (applicable_rules extract_property self tokens index correct_tag = inl IndexError ↔
   (index < - len tokens ∨ len tokens ≤ index)%Z).
Proof.
  rewrite applicable_rules_unfold, getitem_spec.
  case_decide as Hrange.
  - destruct (lookup_lt_is_Some_2 tokens
                (Z.to_nat (if decide (index < 0)%Z then index + len tokens else index)%Z))
      as [tok Htok].
    { unfold len in *. case_decide; lia. }
    rewrite Htok. unfold mbind, result_bind, mret, result_ret.
    destruct (decide (tok.2 = correct_tag)); (split; [done|]); (split; [done|lia]).
  - unfold mbind, result_bind. split; [by intros e [= <-]|]. split; [lia|done].
Qed.

(** When the tag at a valid index is wrong, the rules number the product
    of the Features' counts of in-bounds positions, and every rule carries
    the Template's id, the two tags, and one condition per Feature of the
    Template, in the Template's order. *)
Theorem applicable_rules_count (self : Template) (tokens : list token) (index : Z)
  (correct_tag : string) (tok : token) :
  (0 ≤ index < len tokens)%Z →
  tokens !! Z.to_nat index = Some tok →
  tok.2 ≠ correct_tag →
  ∃ rules,
    applicable_rules extract_property self tokens index correct_tag = inr rules ∧
    length rules = rule_count self tokens index ∧
    Forall (λ rule,
              templateid rule = id self ∧
              original_tag rule = tok.2 ∧
              replacement_tag rule = correct_tag ∧
              (conditions rule).*1 = _features self) rules.
Proof.
  intros Hindex Htok Htag. rewrite applicable_rules_unfold, getitem_spec.
  rewrite decide_True by lia. rewrite decide_False by lia. rewrite Htok.
  unfold mbind, result_bind, mret, result_ret.
  rewrite decide_False by done. eexists. split; [done|]. split.
  - rewrite length_fmap, length_cartesian_product. unfold rule_count.
    induction (_features self) as [|f fs IH]; csimpl; [done|].
    rewrite IH. unfold condition_list. by rewrite length_fmap.
  - apply Forall_fmap, Forall_forall. intros conds Hconds%elem_of_cartesian_product.
    simpl. split_and!; try done.
    revert conds Hconds. induction (_features self) as [|f fs IH]; intros conds Hconds.
    + by inversion Hconds.
    + inversion Hconds as [|c ? cs ? Hc Hcs]; subst. csimpl. f_equal; [|by apply IH].
      unfold condition_list in Hc. by apply list_elem_of_fmap in Hc as (p & -> & _).
Qed.

(** A negative index that [tokens[index]] accepts selects the token from
    the end, but the offsets are added to the negative number: the
    conditions are those of the positions [p] with [0 <= index + p], read
    from the start of the sequence. *)
Theorem applicable_rules_negative_index (self : Template) (tokens : list token)
  (index : Z) (correct_tag : string) (tok : token) :
  (- len tokens ≤ index < 0)%Z →
  tokens !! Z.to_nat (index + len tokens) = Some tok →
  applicable_rules extract_property self tokens index correct_tag =
    inr (if decide (tok.2 = correct_tag) then []
         else mkRule (id self) tok.2 correct_tag
                <$> cartesian_product
                      (condition_list extract_property tokens index <$> _features self)).
Proof.
  intros Hindex Htok. rewrite applicable_rules_unfold, getitem_spec.
  rewrite decide_True by lia. rewrite decide_True by lia. rewrite Htok.
  unfold mbind, result_bind, mret, result_ret. by case_decide.
Qed.

(** [get_neighborhood] is sound for extractors that read only the token
    they are pointed at: replacing the token at [index] changes the rules at
    no valid position outside the neighbourhood of [index]. *)
Theorem get_neighborhood_sound (self : Template) (tokens : list token) (index i : Z)
  (tok : token) (correct_tag : string) :
  reads_only_its_token extract_property →
  (0 ≤ index < len tokens)%Z →
  (0 ≤ i < len tokens)%Z →
  i ∉ get_neighborhood self tokens index →
  applicable_rules extract_property self (<[Z.to_nat index := tok]> tokens) i correct_tag =
    applicable_rules extract_property self tokens i correct_tag.
Proof.
  intros Hlocal Hindex Hi Hout. unfold get_neighborhood in Hout. cbv zeta in Hout.
  rewrite elem_of_fold_add, elem_of_range, elem_of_singleton in Hout.
  pose proof (py_min_spec 0 (feat ← _features self; positions feat)) as [_ Hlo].
  pose proof (py_max_spec 0 (feat ← _features self; positions feat)) as [_ Hhi].
  assert (len (<[Z.to_nat index := tok]> tokens) = len tokens) as Hlen.
  { unfold len. by rewrite length_insert. }
  assert (∀ j : nat, Z.of_nat j ≠ index →
            <[Z.to_nat index := tok]> tokens !! j = tokens !! j) as Hother.
  { intros j Hj. apply list_lookup_insert_ne. lia. }
  destruct (lookup_lt_is_Some_2 tokens (Z.to_nat i)) as [t Ht]; [unfold len in Hi; lia|].
  rewrite !applicable_rules_unfold.
  rewrite (getitem_valid tokens i t), (getitem_valid _ i t); [|lia| |lia|done].
  2: { rewrite Hother; [done|lia]. }
  unfold mbind, result_bind, mret, result_ret.
  case_decide; [done|]. do 3 f_equal.
  apply list_fmap_ext. intros k feature Hfeature%list_elem_of_lookup_2.
  unfold condition_list. rewrite Hlen. apply list_fmap_ext.
  intros k' p [Hbounds Hp]%list_elem_of_lookup_2%list_elem_of_filter. f_equal.
  assert (p ∈ 0%Z :: (feat ← _features self; positions feat)) as Hoffset.
  { right. apply list_elem_of_bind. by exists feature. }
  specialize (Hlo p Hoffset). specialize (Hhi p Hoffset).
  rewrite <- (Z2Nat.id (i + p)) by lia. apply Hlocal, Hother. lia.
Qed.
End Rules_more_facts.

(** ** An [extract_property] that raises *)

Section Rules_raising_facts.
Context {value : Type}.
Context (extract_property : string → list token → Z → result value).
Context (returned : string → list token → Z → value).

Lemma in_bounds_test (tokens : list token) (j : Z) :
  negb ((0 <=? j)%Z && (j <? len tokens)%Z) = false ↔ (0 ≤ j < len tokens)%Z.
Proof. rewrite negb_false_iff, andb_true_iff, Z.leb_le, Z.ltb_lt. done. Qed.

Lemma for_each_position_returns (feature : Feature) (tokens : list token) (index : Z)
  (ps : list Z) (conds : list (list (Feature * value))) :
  (∀ name j, (0 ≤ j < len tokens)%Z →
             extract_property name tokens j = inr (returned name tokens j)) →
  for_each
    (λ conds pos,
       if negb ((0 <=? index + pos)%Z && (index + pos <? len tokens)%Z) then mret conds
       else v ← extract_property (cls feature) tokens (index + pos)%Z;
            mret (append_to_last conds (feature, v))) ps conds =
    inr (fold_left
           (λ conds pos,
              if negb ((0 <=? index + pos)%Z && (index + pos <? len tokens)%Z) then conds
              else append_to_last conds
                     (feature, returned (cls feature) tokens (index + pos)%Z))
           ps conds).
Proof.
  intros Hreturns. revert conds.
  induction ps as [|pos ps IH]; intros conds; [done|].
  cbn [for_each fold_left].
  destruct (negb ((0 <=? index + pos)%Z && (index + pos <? len tokens)%Z)) eqn:Htest.
  - apply IH.
  - apply in_bounds_test in Htest. rewrite (Hreturns _ _ Htest). apply IH.
Qed.

Lemma for_each_feature_returns (features : list Feature) (tokens : list token)
  (index : Z) (conds : list (list (Feature * value))) :
  (∀ name j, (0 ≤ j < len tokens)%Z →
             extract_property name tokens j = inr (returned name tokens j)) →
  for_each
    (λ conds feature,
       for_each
         (λ conds pos,
            if negb ((0 <=? index + pos)%Z && (index + pos <? len tokens)%Z) then mret conds
            else v ← extract_property (cls feature) tokens (index + pos)%Z;
                 mret (append_to_last conds (feature, v)))
         (positions feature) (conds ++ [[]])) features conds =
    inr (fold_left
           (λ conds feature,
              fold_left
                (λ conds pos,
                   if negb ((0 <=? index + pos)%Z && (index + pos <? len tokens)%Z)
                   then conds
                   else append_to_last conds
                          (feature, returned (cls feature) tokens (index + pos)%Z))
                (positions feature) (conds ++ [[]])) features conds).
Proof.
  intros Hreturns. revert conds.
  induction features as [|feature features IH]; intros conds; [done|].
  cbn [for_each fold_left]. rewrite for_each_position_returns by done. apply IH.
Qed.

(** The two loops call [extract_property] inside the sequence only: when
    it returns there, they return what they return over the function of its
    values, whatever it does elsewhere. *)
Lemma _applicable_conditions_raising_returns (self : Template) (tokens : list token)
  (index : Z) :
  (∀ name j, (0 ≤ j < len tokens)%Z →
             extract_property name tokens j = inr (returned name tokens j)) →
  _applicable_conditions_raising extract_property self tokens index =
    inr (_applicable_conditions returned self tokens index).
Proof. apply for_each_feature_returns. Qed.

(** [extract_property] is called inside the sequence only.  Over an
    [extract_property] that returns at every index from 0 to
    [len(tokens) - 1], and may raise at every other, [applicable_rules]
    returns the rules over the values returned, unless [tokens[index]]
    raises: then, for an index below [-len(tokens)] or from [len(tokens)] on,
    it raises [IndexError], and it raises nothing else. *)
Theorem applicable_rules_raises_IndexError_only (self : Template) (tokens : list token)
  (index : Z) (correct_tag : string) :
  (∀ name j, (0 ≤ j < len tokens)%Z →
             extract_property name tokens j = inr (returned name tokens j)) →
  applicable_rules_raising extract_property self tokens index correct_tag =
    applicable_rules returned self tokens index correct_tag ∧
  (∀ e, applicable_rules_raising extract_property self tokens index correct_tag = inl e →
        e = IndexError) ∧
  (applicable_rules_raising extract_property self tokens index correct_tag = inl IndexError ↔
   (index < - len tokens ∨ len tokens ≤ index)%Z).
Proof.
  intros Hreturns.
  assert (applicable_rules_raising extract_property self tokens index correct_tag =
            applicable_rules returned self tokens index correct_tag) as Hsame.
  { unfold applicable_rules_raising, applicable_rules.
    destruct (getitem tokens index) as [e|tok]; [done|].
    cbn [mbind result_bind]. case_bool_decide; [done|].
    by rewrite (_applicable_conditions_raising_returns self tokens index Hreturns). }
  split; [exact Hsame|]. rewrite Hsame. apply applicable_rules_raises.
Qed.
End Rules_raising_facts.

Section Rules_of_Feature_itself.
Context {value : Type}.

Lemma for_each_Feature_extract_property (feature : Feature) (tokens : list token)
  (index : Z) (ps : list Z) (conds : list (list (Feature * value))) :
  for_each
    (λ conds pos,
       if negb ((0 <=? index + pos)%Z && (index + pos <? len tokens)%Z) then mret conds
       else v ← Feature_extract_property (cls feature) tokens (index + pos)%Z;
            mret (append_to_last conds (feature, v))) ps conds =
    if decide (Exists (λ p, (0 ≤ index + p < len tokens)%Z) ps)
    then inl NotImplementedError else inr conds.
Proof.
  induction ps as [|pos ps IH]; cbn [for_each].
  - rewrite decide_False; [done|]. by intros ?%Exists_nil.
  - destruct (negb ((0 <=? index + pos)%Z && (index + pos <? len tokens)%Z)) eqn:Htest.
    + cbn [mbind result_bind mret result_ret]. rewrite IH.
      assert (¬ (0 ≤ index + pos < len tokens)%Z) as Hout.
      { intros Hin%in_bounds_test. congruence. }
      destruct (decide (Exists (λ p, (0 ≤ index + p < len tokens)%Z) ps)) as [Hex|Hex].
      * rewrite decide_True; [done|]. by apply Exists_cons_tl.
      * rewrite decide_False; [done|]. by intros [?|?]%Exists_cons.
    + apply in_bounds_test in Htest. rewrite decide_True; [done|]. by apply Exists_cons_hd.
Qed.

(** A Template over Features of a class that did not override
    [extract_property]: at a valid index whose tag is wrong,
    [applicable_rules] raises [NotImplementedError] exactly when some
    position of some Feature falls inside the sequence, and it raises
    nothing else. *)
Theorem applicable_rules_NotImplementedError (self : Template) (tokens : list token)
  (index : Z) (correct_tag : string) (tok : token) :
  getitem tokens index = inr tok →
  tok.2 ≠ correct_tag →
  (applicable_rules_raising (value := value) Feature_extract_property self tokens index
     correct_tag = inl NotImplementedError ↔
   ∃ feature p, feature ∈ _features self ∧ p ∈ positions feature ∧
                (0 ≤ index + p < len tokens)%Z) ∧
  (∀ e, applicable_rules_raising (value := value) Feature_extract_property self tokens
          index correct_tag = inl e → e = NotImplementedError).
Proof.
  intros Htok Htag. unfold applicable_rules_raising. rewrite Htok.
  cbn [mbind result_bind]. rewrite bool_decide_eq_false_2 by done.
  unfold _applicable_conditions_raising.
  assert (∀ conds : list (list (Feature * value)),
            (∃ r,
               for_each
                 (λ conds feature,
                    for_each
                      (λ conds pos,
                         if negb ((0 <=? index + pos)%Z && (index + pos <? len tokens)%Z)
                         then mret conds
                         else v ← Feature_extract_property (cls feature) tokens
                                    (index + pos)%Z;
                              mret (append_to_last conds (feature, v)))
                      (positions feature) (conds ++ [[]]))
                 (_features self) conds = r ∧
               (r = inl NotImplementedError ∨ ∃ cs, r = inr cs) ∧
               (r = inl NotImplementedError ↔
                ∃ feature p, feature ∈ _features self ∧ p ∈ positions feature ∧
                             (0 ≤ index + p < len tokens)%Z))) as Hloop.
  { induction (_features self) as [|feature features IH]; intros conds; cbn [for_each].
    - eexists. split; [done|]. split; [by right; eexists|].
      split; [done|]. by intros (? & ? & ?%elem_of_nil & _).
    - rewrite for_each_Feature_extract_property.
      destruct (decide (Exists (λ p, (0 ≤ index + p < len tokens)%Z) (positions feature)))
        as [Hex|Hex].
      + eexists. split; [done|]. split; [by left|]. split; [|done]. intros _.
        apply Exists_exists in Hex as (p & Hp & Hin).
        exists feature, p. split; [left|done].
      + cbn [mbind result_bind].
        destruct (IH (conds ++ [[]])) as (r & Hr & Hshape & Hiff).
        exists r. split; [done|]. split; [done|]. rewrite Hiff. split.
        * intros (f & p & Hf & Hp). exists f, p. split; [by right|done].
        * intros (f & p & [->|Hf]%elem_of_cons & Hp & Hin).
          -- destruct Hex. apply Exists_exists. by exists p.
          -- by exists f, p. }
  destruct (Hloop []) as (r & -> & Hshape & Hiff).
  destruct Hshape as [->|[cs ->]]; cbn [mbind result_bind mret result_ret].
  - split; [by rewrite <- Hiff|]. by intros e [= <-].
  - split; [|done]. rewrite <- Hiff. done.
Qed.
End Rules_of_Feature_itself.

(** ** The constructors, continued *)

Lemma StronglySorted_lt_NoDup (xs : list Z) : StronglySorted Z.lt xs → NoDup xs.
Proof.
  induction 1 as [|x xs _ IH Hx]; constructor; [|done].
  intros Hin. rewrite Forall_forall in Hx. specialize (Hx x Hin). lia.
Qed.

Lemma StronglySorted_lt_unique (xs ys : list Z) :
  StronglySorted Z.lt xs → StronglySorted Z.lt ys → (∀ p, p ∈ xs ↔ p ∈ ys) → xs = ys.
Proof.
  intros Hxs Hys Hsame. apply (StronglySorted_unique_strong Z.lt); [|done..|].
  - intros x y _ _ Hxy Hyx. lia.
  - apply NoDup_Permutation; auto using StronglySorted_lt_NoDup.
Qed.

Lemma sorted_set_of_increasing (xs : list Z) :
  StronglySorted Z.lt xs → sorted Z.ltb (elements (list_to_set xs : gset Z)) = xs.
Proof.
  intros Hxs. destruct (sorted_set_spec xs) as [Hsorted Hmem].
  by apply StronglySorted_lt_unique.
Qed.

Lemma comprehension_returns {A B} (f : A → result B) (g : A → B) (xs : list A) :
  (∀ x, x ∈ xs → f x = inr (g x)) → comprehension f xs = inr (g <$> xs).
Proof.
  induction xs as [|x xs IH]; intros Hf; [done|].
  rewrite comprehension_cons, Hf, IH; [done| |left].
  intros x' Hx'. apply Hf. by right.
Qed.

Lemma comprehension_Forall2 {A B} (f : A → result B) (xs : list A) (ys : list B) :
  Forall2 (λ x y, f x = inr y) xs ys → comprehension f xs = inr ys.
Proof.
  induction 1 as [|x y xs ys Hxy _ IH]; [done|].
  by rewrite comprehension_cons, Hxy, IH.
Qed.

Section Constructors_more_facts.
Variable int_of_str : string → option Z.

Lemma Feature_init_increasing (name : string) (xs : list Z) :
  StronglySorted Z.lt xs →
  Feature_init int_of_str name (PyList (PyInt <$> xs)) PyNone = inr (mkFeature name xs).
Proof. intros Hxs. by rewrite Feature_init_ints, sorted_set_of_increasing. Qed.

Lemma Feature_init_int_tuple (name : string) (xs : list Z) :
  Feature_init int_of_str name (PyTuple (PyInt <$> xs)) PyNone =
    inr (mkFeature name (sorted Z.ltb (elements (list_to_set xs : gset Z)))).
Proof. unfold Feature_init. simpl. by rewrite comprehension_int_PyInt. Qed.

Lemma Feature_init_returns_increasing (name : string) (p e : pyval) (f : Feature) :
  Feature_init int_of_str name p e = inr f →
  cls f = name ∧ StronglySorted Z.lt (positions f).
Proof.
  unfold Feature_init. intros Hf.
  assert (∀ r : result (list Z),
            (ps ← except_TypeError_raise_ValueError r; mret (mkFeature name ps)) = inr f →
            (∀ ps, r = inr ps → StronglySorted Z.lt ps) →
            cls f = name ∧ StronglySorted Z.lt (positions f)) as Hwrap.
  { intros [y|ps] Hr Hps; simpl in Hr; [by destruct y|].
    injection Hr as <-. split; [done|]. by apply Hps. }
  assert (∀ ps, interval p e = inr ps → StronglySorted Z.lt ps) as Hint.
  { intros ps. unfold interval. repeat case_match; try done.
    intros [= <-]. apply StronglySorted_seqZ. }
  destruct e; try (by eapply Hwrap).
  destruct (iter p) as [y|items]; simpl in Hf; [done|].
  destruct (comprehension (int int_of_str) items) as [y|ints]; simpl in Hf; [done|].
  injection Hf as <-. split; [done|]. apply sorted_set_spec.
Qed.

(** The positions count as a set: two sequences of ints with the same
    members, given as a list or as a tuple, in any order and with any
    repetitions, construct the same Feature. *)
Theorem Feature_init_same_members (name : string) (xs ys : list Z) :
  (∀ p, p ∈ xs ↔ p ∈ ys) →
  Feature_init int_of_str name (PyList (PyInt <$> xs)) PyNone =
    Feature_init int_of_str name (PyTuple (PyInt <$> ys)) PyNone.
Proof.
  intros Hsame. rewrite Feature_init_ints, Feature_init_int_tuple.
  assert ((list_to_set xs : gset Z) = list_to_set ys) as ->; [|done].
  apply set_eq. intros p. by rewrite !elem_of_list_to_set.
Qed.

(** Constructing again from the positions of a constructed Feature gives
    that Feature back. *)
Theorem Feature_init_round_trip (name : string) (p e : pyval) (f : Feature) :
  Feature_init int_of_str name p e = inr f →
  Feature_init int_of_str name (PyList (PyInt <$> positions f)) PyNone = inr f.
Proof.
  intros [<- Hsorted]%Feature_init_returns_increasing.
  rewrite Feature_init_increasing by done. by destruct f.
Qed.

(** The contiguous form is the list form on the ints from [start] to [end]:
    [Feature(start, end)] and [Feature(range(start, end+1))] are the same
    Feature when [start <= end]. *)
Theorem Feature_init_interval_as_list (name : string) (a b : Z) :
  (a ≤ b)%Z →
  Feature_init int_of_str name (PyInt a) (PyInt b) =
    Feature_init int_of_str name (PyList (PyInt <$> range a (b + 1))) PyNone.
Proof.
  intros Hab. rewrite Feature_init_interval.
  rewrite Feature_init_increasing by apply StronglySorted_seqZ.
  destruct (Z.gtb_spec a b); [lia|done].
Qed.

(** The two calling forms of [Template] agree: handed a Feature subclass
    and tuples of arguments, the constructor builds and registers the very
    Template it builds from the Features those arguments construct. *)
Theorem Template_init_forms_agree (name : string) (tps : list (list pyval))
  (fs : list Feature) (w : world) :
  Forall2 (λ tp f, Feature_call int_of_str name tp = inr f) tps fs →
  Template_init int_of_str (PyClass name true :: (PyTuple <$> tps)) w =
    Template_init int_of_str (PyFeature <$> fs) w.
Proof.
  intros Hbuilt. rewrite Template_init_features. unfold Template_init, calling_form.
  cbn [forallb isinstance_Feature andb issubclass_Feature].
  cbn [mbind result_bind mret result_ret].
  assert (forallb isinstance_tuple (PyTuple <$> tps) = true) as ->.
  { clear. induction tps; csimpl; auto. }
  cbn [andb].
  rewrite (comprehension_Forall2 _ (PyTuple <$> tps) fs); [done|].
  clear -Hbuilt. induction Hbuilt; csimpl; constructor; auto.
Qed.

(** [poptemplate] undoes a construction: right after a Template was
    constructed it returns that Template and leaves the registry as it was
    before the construction; on an empty registry it returns [None] and
    changes nothing. *)
Theorem poptemplate_undoes_Template_init (features : list pyval) (w w' : world)
  (self : Template) :
  Template_init int_of_str features w = (inr self, w') →
  poptemplate w' = (Some self, mkWorld (ALLTEMPLATES w) (created w')) ∧
  poptemplate (mkWorld [] (created w)) = (None, mkWorld [] (created w)).
Proof.
  intros Hinit. split; [|done].
  destruct (Template_init_cases int_of_str features w) as [[e He]|(self' & Hs & _)];
    rewrite Hinit in *; simplify_eq.
  apply poptemplate_snoc.
Qed.

(** Over strictly increasing [starts] the Features returned by
    [Feature.expand] hold the windows themselves. *)
Theorem Feature_expand_increasing_starts (name : string) (starts winlens : list Z)
  (excludezero : bool) :
  StronglySorted Z.lt starts →
  Forall (λ w, (0 < w)%Z) winlens →
  Feature_expand int_of_str name starts winlens excludezero =
    inr (mkFeature name
           <$> filter (λ x, ¬ (excludezero = true ∧ 0%Z ∈ x)) (windows starts winlens)).
Proof.
  intros Hstarts Hpos. unfold Feature_expand.
  assert (forallb (λ x, (x >? 0)%Z) winlens = true) as ->.
  { apply forallb_forall. intros w Hw%list_elem_of_In.
    rewrite Forall_forall in Hpos. specialize (Hpos w Hw). lia. }
  cbn [negb]. rewrite windows_by_slices by done.
  apply comprehension_returns. intros x [_ Hx]%list_elem_of_filter.
  apply Feature_init_increasing.
  unfold windows in Hx. apply list_elem_of_bind in Hx as (w & Hx & _).
  apply list_elem_of_fmap in Hx as (i & -> & _).
  rewrite <- (take_drop i starts) in Hstarts.
  apply StronglySorted_app_1_r in Hstarts.
  rewrite <- (take_drop (Z.to_nat w) (drop i starts)) in Hstarts.
  by apply StronglySorted_app_1_l in Hstarts.
Qed.
End Constructors_more_facts.

(** ** Instances, continued *)


Lemma expand_yields_selections_witness :
  size_allowed [[Word_0]; [Word_1]] CNone
    (length (_features (mkTemplate "002" [Word_0; Word_1]))) ∧
  ∃ pick picks,
    sublist picks [[Word_0]; [Word_1]] ∧ Forall2 (∈) pick picks ∧
    _features (mkTemplate "002" [Word_0; Word_1]) ≡ₚ pick.
Proof.
  apply (expand_yields_selections int_of_decimal [[Word_0]; [Word_1]] CNone true
           empty_world).
  vm_compute. do 2 apply list_elem_of_further. apply list_elem_of_here.
Defined.

Lemma expand_skipintersecting_yields_disjoint_witness :
  mkTemplate "002" [Word_0; Word_1]
    ∈ (expand int_of_decimal [[Word_0]; [Word_1]] CNone true empty_world).1.1 ∧
  ¬ (cls Word_0 = cls Word_1 ∧ ∃ p, p ∈ positions Word_0 ∧ p ∈ positions Word_1).
Proof.
  assert (mkTemplate "002" [Word_0; Word_1]
            ∈ (expand int_of_decimal [[Word_0]; [Word_1]] CNone true empty_world).1.1)
    as Hyielded.
  { vm_compute. do 2 apply list_elem_of_further. apply list_elem_of_here. }
  split; [exact Hyielded|].
  apply (expand_skipintersecting_yields_disjoint int_of_decimal [[Word_0]; [Word_1]] CNone
           empty_world (mkTemplate "002" [Word_0; Word_1]) 0 1 Word_0 Word_1 Hyielded).
  - reflexivity.
  - reflexivity.
  - lia.
Defined.


Lemma applicable_rules_raises_IndexError_only_witness :
  let self := mkTemplate "000" [mkFeature "Word" [0%Z]; mkFeature "Pos" [-1; 1]%Z] in
  (∀ name j, (0 ≤ j < len the_old_man)%Z →
             word_or_tag_of_item name the_old_man j = inr (word_or_tag name the_old_man j)) ∧
  word_or_tag_of_item "Pos" the_old_man (2 + 1) = inl IndexError ∧
  applicable_rules_raising word_or_tag_of_item self the_old_man 2 "JJ" =
    applicable_rules word_or_tag self the_old_man 2 "JJ" ∧
  (∀ e, applicable_rules_raising word_or_tag_of_item self the_old_man 2 "JJ" = inl e →
        e = IndexError) ∧
  (applicable_rules_raising word_or_tag_of_item self the_old_man 2 "JJ" = inl IndexError ↔
   (2 < - len the_old_man ∨ len the_old_man ≤ 2)%Z).
Proof.
  cbv zeta.
  assert (∀ name j, (0 ≤ j < len the_old_man)%Z →
                    word_or_tag_of_item name the_old_man j =
                      inr (word_or_tag name the_old_man j)) as Hreturns.
  { intros name j Hj.
    assert (j = 0 ∨ j = 1 ∨ j = 2)%Z as Hcases by (unfold len in Hj; simpl in Hj; lia).
    destruct Hcases as [Hj0|[Hj1|Hj2]]; subst j; reflexivity. }
  split; [exact Hreturns|]. split; [reflexivity|].
  exact (applicable_rules_raises_IndexError_only word_or_tag_of_item word_or_tag
           (mkTemplate "000" [mkFeature "Word" [0%Z]; mkFeature "Pos" [-1; 1]%Z])
           the_old_man 2 "JJ" Hreturns).
Defined.

Lemma applicable_rules_NotImplementedError_witness :
  let self := mkTemplate "000" [mkFeature "Pos" [-2; 1]%Z] in
  getitem the_old_man 1 = inr ("old", "NN") ∧
  ("old", "NN").2 ≠ "JJ" ∧
  (applicable_rules_raising (value := string) Feature_extract_property self the_old_man 1
     "JJ" = inl NotImplementedError ↔
   ∃ feature p, feature ∈ _features self ∧ p ∈ positions feature ∧
                (0 ≤ 1 + p < len the_old_man)%Z) ∧
  (∀ e, applicable_rules_raising (value := string) Feature_extract_property self
          the_old_man 1 "JJ" = inl e → e = NotImplementedError).
Proof.
  cbv zeta.
  assert (getitem the_old_man 1 = inr ("old", "NN")) as Htok by reflexivity.
  assert (("old", "NN").2 ≠ "JJ") as Htag by discriminate.
  split; [exact Htok|]. split; [exact Htag|].
  exact (applicable_rules_NotImplementedError
           (mkTemplate "000" [mkFeature "Pos" [-2; 1]%Z]) the_old_man 1 "JJ" ("old", "NN")
           Htok Htag).
Defined.

Lemma applicable_rules_count_witness :
  let self := mkTemplate "000" [mkFeature "Word" [0%Z]; mkFeature "Pos" [-1; 1]%Z] in
  ∃ rules,
    applicable_rules word_or_tag self the_old_man 1 "JJ" = inr rules ∧
    length rules = rule_count self the_old_man 1 ∧
    Forall (λ rule,
              templateid rule = id self ∧
              original_tag rule = ("old", "NN").2 ∧
              replacement_tag rule = "JJ" ∧
              (conditions rule).*1 = _features self) rules.
Proof.
  apply (applicable_rules_count word_or_tag
           (mkTemplate "000" [mkFeature "Word" [0%Z]; mkFeature "Pos" [-1; 1]%Z])
           the_old_man 1 "JJ" ("old", "NN")).
  - vm_compute. split; [discriminate|reflexivity].
  - reflexivity.
  - discriminate.
Defined.

Lemma applicable_rules_negative_index_witness :
  let self := mkTemplate "000" [mkFeature "Word" [0; 1]%Z] in
  applicable_rules word_or_tag self the_old_man (-1) "JJ" =
    inr (if decide (("man", "NN").2 = "JJ") then []
         else mkRule (id self) ("man", "NN").2 "JJ"
                <$> cartesian_product
                      (condition_list word_or_tag the_old_man (-1) <$> _features self)).
Proof.
  apply (applicable_rules_negative_index word_or_tag
           (mkTemplate "000" [mkFeature "Word" [0; 1]%Z]) the_old_man (-1) "JJ"
           ("man", "NN")).
  - vm_compute. split; [discriminate|reflexivity].
  - reflexivity.
Defined.

Lemma word_or_tag_reads_only_its_token : reads_only_its_token word_or_tag.
Proof.
  intros name tokens tokens' j Hj. unfold word_or_tag, token in *.
  rewrite Nat2Z.id. by rewrite Hj.
Qed.

Lemma get_neighborhood_sound_witness :
  let self := mkTemplate "000" [mkFeature "Word" [0%Z]; mkFeature "Pos" [(-1)%Z]] in
  applicable_rules word_or_tag self (<[Z.to_nat 0 := ("an", "DT")]> the_old_man) 2 "JJ" =
    applicable_rules word_or_tag self the_old_man 2 "JJ".
Proof.
  apply (get_neighborhood_sound word_or_tag
           (mkTemplate "000" [mkFeature "Word" [0%Z]; mkFeature "Pos" [(-1)%Z]])
           the_old_man 0 2 ("an", "DT") "JJ").
  - exact word_or_tag_reads_only_its_token.
  - vm_compute. split; [discriminate|reflexivity].
  - vm_compute. split; [discriminate|reflexivity].
  - apply (bool_decide_unpack _). vm_compute. exact I.
Defined.

Lemma Feature_init_same_members_witness :
  Feature_init int_of_decimal "Word" (PyList (PyInt <$> [2; -1; 2]%Z)) PyNone =
    Feature_init int_of_decimal "Word" (PyTuple (PyInt <$> [-1; 2]%Z)) PyNone.
Proof.
  apply Feature_init_same_members. intros p.
  rewrite !elem_of_cons, !elem_of_nil. tauto.
Defined.

Lemma Feature_init_round_trip_witness :
  Feature_init int_of_decimal "Word"
    (PyList (PyInt <$> positions (mkFeature "Word" [-1; 3]%Z))) PyNone =
    inr (mkFeature "Word" [-1; 3]%Z).
Proof.
  apply (Feature_init_round_trip int_of_decimal "Word"
           (PyList [PyInt 3; PyInt (-1); PyInt 3]) PyNone).
  vm_compute. reflexivity.
Defined.

Lemma Feature_init_interval_as_list_witness :
  Feature_init int_of_decimal "Pos" (PyInt (-2)) (PyInt 1) =
    Feature_init int_of_decimal "Pos" (PyList (PyInt <$> range (-2) (1 + 1))) PyNone.
Proof. apply Feature_init_interval_as_list. lia. Defined.

Lemma Template_init_forms_agree_witness :
  Template_init int_of_decimal
    (PyClass "Pos" true :: (PyTuple <$> [[PyInt (-2); PyInt (-1)]; [PyList [PyInt 1]]]))
    empty_world =
  Template_init int_of_decimal
    (PyFeature <$> [mkFeature "Pos" [-2; -1]%Z; mkFeature "Pos" [1%Z]]) empty_world.
Proof.
  apply Template_init_forms_agree.
  repeat constructor; vm_compute; reflexivity.
Defined.

Lemma poptemplate_undoes_Template_init_witness :
  let self := mkTemplate "000" [Word_0] in
  poptemplate (mkWorld [self] [self]) =
    (Some self, mkWorld (ALLTEMPLATES empty_world) (created (mkWorld [self] [self]))) ∧
  poptemplate (mkWorld [] (created empty_world)) =
    (None, mkWorld [] (created empty_world)).
Proof.
  apply (poptemplate_undoes_Template_init int_of_decimal [PyFeature Word_0] empty_world).
  vm_compute. reflexivity.
Defined.

Lemma Feature_expand_increasing_starts_witness :
  Feature_expand int_of_decimal "Word" [-1; 0; 1]%Z [1; 2]%Z true =
    inr (mkFeature "Word"
           <$> filter (λ x, ¬ (true = true ∧ 0%Z ∈ x)) (windows [-1; 0; 1]%Z [1; 2]%Z)).
Proof.
  apply Feature_expand_increasing_starts.
  - repeat constructor; lia.
  - repeat constructor; lia.
Defined.

(** ** The six comparisons within one subclass *)

(** On two Features of one subclass the comparisons agree with one another:
    [a <= b] is [b >= a], [a > b] is the negation of [a <= b], and exactly
    one of [a < b], [a == b], [a > b] holds. *)
Theorem Feature_comparisons_agree_within_class (a b : Feature) :
  cls a = cls b →
  Feature_le a b = Feature_ge b a ∧
  Feature_gt a b = negb (Feature_le a b) ∧
  (Feature_lt a b = true ∧ Feature_eq a b = false ∧ Feature_gt a b = false ∨
   Feature_lt a b = false ∧ Feature_eq a b = true ∧ Feature_gt a b = false ∨
   Feature_lt a b = false ∧ Feature_eq a b = false ∧ Feature_gt a b = true).
Proof.
  intros Hcls. unfold Feature_le, Feature_ge, Feature_gt, Feature_lt, Feature_eq.
  rewrite <- Hcls, String_ltb_irrefl, (bool_decide_eq_true_2 _ eq_refl). simpl.
  destruct (decide (positions a = positions b)) as [Heq|Hne].
  - rewrite Heq, tuple_lt_irrefl, (bool_decide_eq_true_2 _ eq_refl). simpl. tauto.
  - rewrite (bool_decide_eq_false_2 _ Hne).
    destruct (tuple_lt (positions a) (positions b)) eqn:Hab,
      (tuple_lt (positions b) (positions a)) eqn:Hba; simpl.
    + pose proof (tuple_lt_trans _ _ _ Hab Hba) as Haa.
      rewrite tuple_lt_irrefl in Haa. discriminate Haa.
    + tauto.
    + tauto.
    + destruct (tuple_lt_total _ _ Hne); congruence.
Qed.

Lemma Feature_comparisons_agree_within_class_witness :
  Feature_le Word_0 Word_1 = Feature_ge Word_1 Word_0 ∧
  Feature_gt Word_0 Word_1 = negb (Feature_le Word_0 Word_1) ∧
  (Feature_lt Word_0 Word_1 = true ∧ Feature_eq Word_0 Word_1 = false ∧
   Feature_gt Word_0 Word_1 = false ∨
   Feature_lt Word_0 Word_1 = false ∧ Feature_eq Word_0 Word_1 = true ∧
   Feature_gt Word_0 Word_1 = false ∨
   Feature_lt Word_0 Word_1 = false ∧ Feature_eq Word_0 Word_1 = false ∧
   Feature_gt Word_0 Word_1 = true).
Proof. apply Feature_comparisons_agree_within_class. reflexivity. Defined.

(** ** An abandoned [expand] *)

Lemma expand_body_yielded_prefix (int_of_str : string → option Z) (skip : bool)
  (st : expanding) (pick : list Feature) :
  yielded st `prefix_of` yielded (expand_body int_of_str skip st pick).
Proof.
  unfold expand_body. destruct (raised st); [done|].
  destruct (any_two issuperset pick); [done|].
  destruct (skip && any_two intersects pick); [done|].
  rewrite Template_init_features. cbv beta iota zeta.
  case_bool_decide; simpl; [done|]. by apply prefix_app_r.
Qed.

Lemma fold_expand_body_yielded_prefix (int_of_str : string → option Z) (skip : bool)
  (picks : list (list Feature)) (st : expanding) :
  yielded st `prefix_of` yielded (fold_left (expand_body int_of_str skip) picks st).
Proof.
  revert st. induction picks as [|pick picks IH]; intros st; simpl; [done|].
  etrans; [apply expand_body_yielded_prefix|apply IH].
Qed.

(** A generator of [expand] that is abandoned after any number of
    candidates leaves the registry as the registry before followed by the
    Templates yielded so far, and these begin the sequence the exhausted
    generator yields. *)
Theorem expand_abandoned_registers_what_it_yielded (int_of_str : string → option Z)
  (featurelists : list (list Feature)) (combinations : combinations_arg) (skip : bool)
  (tried : nat) (w : world) :
  let st :=
    expand_loop int_of_str skip (take tried (candidates featurelists combinations).1) w in
  exec int_of_str w (OpExpand featurelists combinations skip (Some tried)) = now st ∧
  ALLTEMPLATES (now st) = ALLTEMPLATES w ++ yielded st ∧
  yielded st `prefix_of` (expand int_of_str featurelists combinations skip w).1.1.
Proof.
  cbv zeta. split; [done|]. split.
  - destruct (fold_expand_body_invariant int_of_str skip
                (take tried (candidates featurelists combinations).1)
                (mkExpanding ∅ [] None w) (ALLTEMPLATES w))
      as (_ & _ & Hreg & _); simpl; try done.
    by rewrite app_nil_r.
  - rewrite expand_unfold. cbv zeta. simpl. unfold expand_loop.
    rewrite <- (take_drop tried (candidates featurelists combinations).1) at 2.
    rewrite fold_left_app. apply fold_expand_body_yielded_prefix.
Qed.
